(** * player.py: a switch-controlled shuffling audio player

    A shallow embedding of [RandomAudioPlayer] (src/player.py) and the
    properties of its playlist, its scanner and its playback loop.

    The object's fields live in a record, the methods are computations in
    a small monad that threads the object and Python's hidden random
    state, collects the observable effects (printed lines and calls made
    on the VLC player) in a trace, and can raise [IndexError]. *)

From Stdlib Require Import List String Ascii Arith Bool Lia Permutation.
From Stdlib Require Import DecimalString.
Import ListNotations.

(** ** Strings: [str.lower], [str.endswith], [os.path] *)

Module Str.

(** [str.lower] on the ASCII range: A..Z become a..z. *)
Definition lower_ascii (c : ascii) : ascii :=
  let n := nat_of_ascii c in
  if (65 <=? n) && (n <=? 90) then ascii_of_nat (n + 32) else c.

Fixpoint lower (s : string) : string :=
  match s with
  | EmptyString => EmptyString
  | String c r => String (lower_ascii c) (lower r)
  end.

(** [s.endswith(suffix)] for one suffix. *)
Definition endswith1 (s suffix : string) : bool :=
  let n := String.length s in
  let k := String.length suffix in
  (k <=? n) && String.eqb (substring (n - k) k s) suffix.

(** [s.endswith(suffixes)] for a tuple of suffixes. *)
Definition endswith (s : string) (suffixes : list string) : bool :=
  existsb (endswith1 s) suffixes.

Definition ends_with_slash (s : string) : bool := endswith1 s "/".

Definition starts_with_slash (s : string) : bool :=
  match s with
  | String c _ => Ascii.eqb c "/"
  | EmptyString => false
  end.

(** [os.path.join(a, b)] (posixpath, two arguments). *)
Definition join (a b : string) : string :=
  if starts_with_slash b then b
  else if (String.length a =? 0) || ends_with_slash a then (a ++ b)%string
  else (a ++ "/" ++ b)%string.

(** [os.path.basename(p)]: what follows the last slash. *)
Fixpoint basename_from (acc p : string) : string :=
  match p with
  | EmptyString => acc
  | String c r =>
      if Ascii.eqb c "/" then basename_from EmptyString r
      else basename_from (acc ++ String c EmptyString)%string r
  end.

Definition basename (p : string) : string := basename_from EmptyString p.

(** [str(n)] for a non-negative integer. *)
Definition of_nat (n : nat) : string :=
  NilZero.string_of_uint (Nat.to_uint n).

End Str.

(** ** The directory tree seen by [os.walk] *)

Module Fs.

(** A directory entry: a file (anything that is not a directory), or a
    subdirectory with its own entries. *)
#[warnings="-register-all"]
Inductive entry : Type :=
| File (name : string)
| Dir (name : string) (children : list entry).

(** What [os.path.exists] and [os.walk] find at the configured path. *)
Inductive root : Type :=
| NoSuchPath
| RootFile
| RootDir (children : list entry).

Definition exists_ (r : root) : bool :=
  match r with NoSuchPath => false | _ => true end.

Definition dirnames (es : list entry) : list string :=
  flat_map (fun e => match e with Dir n _ => [n] | File _ => [] end) es.

Definition filenames (es : list entry) : list string :=
  flat_map (fun e => match e with File n => [n] | Dir _ _ => [] end) es.

(** [os.walk(top)], top-down.  [walk_entry top e] is the walk below the
    entry [e] of the directory [top]: nothing for a file; for a
    subdirectory, its own triple first, then the walk of each of its
    entries in listing order. *)
Fixpoint walk_entry (top : string) (e : entry)
  : list (string * list string * list string) :=
  match e with
  | File _ => []
  | Dir n cs =>
      let new_path := Str.join top n in
      (new_path, dirnames cs, filenames cs)
        :: flat_map (walk_entry new_path) cs
  end.

Definition walk_dir (top : string) (es : list entry)
  : list (string * list string * list string) :=
  (top, dirnames es, filenames es) :: flat_map (walk_entry top) es.

(** [os.walk] yields nothing when [top] cannot be listed. *)
Definition walk (top : string) (r : root)
  : list (string * list string * list string) :=
  match r with
  | RootDir es => walk_dir top es
  | RootFile | NoSuchPath => []
  end.

End Fs.

(** ** [random.shuffle] *)

Module Random.

(** The hidden state of the [random] module: the raw draws still to
    come.  Every behaviour of the generator is some tape. *)
Definition rng := list nat.

(** [_randbelow(n)]: a number in [range(n)]. *)
Definition randbelow (n : nat) (g : rng) : nat * rng :=
  match g with
  | [] => (0, [])
  | r :: g' => (r mod n, g')
  end.

(** [x[i] = v] on a list, a no-op out of range (never reached here). *)
Fixpoint set_nth {A : Type} (i : nat) (v : A) (x : list A) : list A :=
  match x, i with
  | [], _ => []
  | _ :: t, 0 => v :: t
  | h :: t, S i' => h :: set_nth i' v t
  end.

(** [x[i], x[j] = x[j], x[i]] *)
Definition swap {A : Type} (i j : nat) (x : list A) : list A :=
  match nth_error x j, nth_error x i with
  | Some xj, Some xi => set_nth j xi (set_nth i xj x)
  | _, _ => x
  end.

(** The loop of [shuffle]: [for i in reversed(range(1, len(x)))],
    entered with the largest [i]. *)
Fixpoint shuffle_loop {A : Type} (i : nat) (x : list A) (g : rng)
  : list A * rng :=
  match i with
  | 0 => (x, g)
  | S i' =>
      let (j, g') := randbelow (i + 1) g in
      shuffle_loop i' (swap i j x) g'
  end.

Definition shuffle {A : Type} (x : list A) (g : rng) : list A * rng :=
  shuffle_loop (List.length x - 1) x g.

End Random.

(** ** The VLC player and the observable effects *)

Module Vlc.

(** [vlc.State] *)
Inductive State : Type :=
| NothingSpecial | Opening | Buffering | Playing | Paused
| Stopped | Ended | Error.

Definition State_eqb (a b : State) : bool :=
  match a, b with
  | NothingSpecial, NothingSpecial | Opening, Opening
  | Buffering, Buffering | Playing, Playing | Paused, Paused
  | Stopped, Stopped | Ended, Ended | Error, Error => true
  | _, _ => false
  end.

End Vlc.

(** What the program does to the outside, in order: a printed line, a
    call on the VLC instance or player, the sleep of the main loop. *)
Inductive event : Type :=
| Print (line : string)
| MediaNew (mrl : string)
| SetMedia (mrl : string)
| Play
| Stop
| GetState
| Sleep.

(** ** The object and the monad of its methods *)

Definition SUPPORTED_FORMATS : list string :=
  [".mp3"; ".wav"; ".ogg"; ".flac"; ".m4a"; ".aac"]%string.

Record RandomAudioPlayer : Type := mkPlayer {
  music_dir : string;
  playlist : list string;
  current_index : nat;
  is_playing : bool
}.

Record machine : Type := mkMachine {
  self : RandomAudioPlayer;
  random_state : Random.rng
}.

Inductive exn : Type := IndexError.

Inductive result (A : Type) : Type :=
| Ok (a : A)
| Raise (e : exn).
Arguments Ok {A} a.
Arguments Raise {A} e.

(** A method: from the machine before to the outcome, the machine after
    and the effects issued.  An exception keeps the machine and the
    effects reached so far. *)
Definition M (A : Type) : Type := machine -> result A * machine * list event.

Definition ret {A : Type} (a : A) : M A := fun w => (Ok a, w, []).

Definition bind {A B : Type} (m : M A) (f : A -> M B) : M B :=
  fun w =>
    match m w with
    | (Ok a, w1, t1) => let '(r, w2, t2) := f a w1 in (r, w2, t1 ++ t2)
    | (Raise e, w1, t1) => (Raise e, w1, t1)
    end.

Declare Scope py_scope.
Delimit Scope py_scope with py.
Notation "x <- m ;; k" := (bind m (fun x => k))
  (at level 61, m at next level, right associativity) : py_scope.
Notation "m ;; k" := (bind m (fun _ => k))
  (at level 61, right associativity) : py_scope.
Local Open Scope py_scope.

Definition raise {A : Type} (e : exn) : M A := fun w => (Raise e, w, []).

Definition emit (ev : event) : M unit := fun w => (Ok tt, w, [ev]).

Definition print (line : string) : M unit := emit (Print line).

Definition get {A : Type} (field : RandomAudioPlayer -> A) : M A :=
  fun w => (Ok (field (self w)), w, []).

Definition update (f : RandomAudioPlayer -> RandomAudioPlayer) : M unit :=
  fun w => (Ok tt, mkMachine (f (self w)) (random_state w), []).

Definition set_playlist (v : list string) : M unit :=
  update (fun p => mkPlayer (music_dir p) v (current_index p) (is_playing p)).

Definition set_current_index (v : nat) : M unit :=
  update (fun p => mkPlayer (music_dir p) (playlist p) v (is_playing p)).

Definition set_is_playing (v : bool) : M unit :=
  update (fun p => mkPlayer (music_dir p) (playlist p) (current_index p) v).

(** [random.shuffle(self.playlist)] *)
Definition shuffle_playlist : M unit :=
  fun w =>
    let (x, g) := Random.shuffle (playlist (self w)) (random_state w) in
    let p := self w in
    (Ok tt, mkMachine (mkPlayer (music_dir p) x (current_index p) (is_playing p)) g, []).

(** [for x in xs: body(x)] *)
Fixpoint for_each {A : Type} (xs : list A) (body : A -> M unit) : M unit :=
  match xs with
  | [] => ret tt
  | x :: rest => body x ;; for_each rest body
  end.

(** [xs[i]] *)
Definition index {A : Type} (xs : list A) (i : nat) : M A :=
  match nth_error xs i with
  | Some x => ret x
  | None => raise IndexError
  end.

Definition nonempty {A : Type} (xs : list A) : bool :=
  match xs with [] => false | _ :: _ => true end.

(** ** The methods of [RandomAudioPlayer] *)

Definition nl : string := String (ascii_of_nat 10) EmptyString.

Definition msg_no_tracks : string := "No tracks to play".
Definition msg_reshuffle : string := "Reshuffling playlist...".
Definition msg_switch_on : string := "Switch ON - Starting playback".
Definition msg_switch_off : string := "Switch OFF - Stopping playback".
Definition msg_missing (dir : string) : string :=
  ("Error: Directory " ++ dir ++ " does not exist!")%string.

(** [load_playlist], given what the file system holds at [music_dir]. *)
Definition load_playlist (fs : Fs.root) : M unit :=
  dir <- get music_dir ;;
  print ("Scanning " ++ dir ++ " for audio files...")%string ;;
  set_playlist [] ;;
  if negb (Fs.exists_ fs) then
    print (msg_missing dir)
  else
    for_each (Fs.walk dir fs) (fun '(root, _, files) =>
      for_each files (fun file =>
        if Str.endswith (Str.lower file) SUPPORTED_FORMATS then
          let full_path := Str.join root file in
          pl <- get playlist ;;
          set_playlist (pl ++ [full_path])
        else ret tt)) ;;
    pl <- get playlist ;;
    if nonempty pl then
      shuffle_playlist ;;
      pl' <- get playlist ;;
      print ("Found " ++ Str.of_nat (List.length pl') ++ " audio files")%string
    else
      print ("No audio files found in " ++ dir)%string.

(** [play_next] *)
Definition play_next : M unit :=
  pl <- get playlist ;;
  if negb (nonempty pl) then
    print msg_no_tracks
  else
    i <- get current_index ;;
    track <- index pl i ;;
    print ("Playing: " ++ Str.basename track)%string ;;
    emit (MediaNew track) ;;
    emit (SetMedia track) ;;
    emit Play ;;
    set_current_index ((i + 1) mod List.length pl) ;;
    i' <- get current_index ;;
    if i' =? 0 then
      print msg_reshuffle ;;
      shuffle_playlist
    else ret tt.

(** [start_playing], the handler of [button.when_pressed] *)
Definition start_playing : M unit :=
  playing <- get is_playing ;;
  if negb playing then
    print msg_switch_on ;;
    set_is_playing true ;;
    play_next
  else ret tt.

(** [stop_playing], the handler of [button.when_released] *)
Definition stop_playing : M unit :=
  playing <- get is_playing ;;
  if playing then
    print msg_switch_off ;;
    set_is_playing false ;;
    emit Stop
  else ret tt.

(** One turn of the [while True] loop of [run]; [state] is what
    [player.get_state()] answers if it is asked. *)
Definition poll_cycle (state : Vlc.State) : M unit :=
  playing <- get is_playing ;;
  (if playing then
     emit GetState ;;
     if Vlc.State_eqb state Vlc.Ended || Vlc.State_eqb state Vlc.Stopped then
       play_next
     else ret tt
   else ret tt) ;;
  emit Sleep.

(** What reaches the controller: the two switch edges, and the turns of
    the main loop with the status the player would report. *)
Inductive input : Type :=
| SwitchActivated
| SwitchDeactivated
| Poll (state : Vlc.State).

Definition handle (i : input) : M unit :=
  match i with
  | SwitchActivated => start_playing
  | SwitchDeactivated => stop_playing
  | Poll state => poll_cycle state
  end.

(** The inputs of a session, handled one at a time. *)
Definition session (ins : list input) : M unit := for_each ins handle.

(** [__init__]: the fields, then the scan. The VLC instance, the player
    and the button carry no state of their own here. *)
Definition init (music_directory : string) (fs : Fs.root) (g : Random.rng)
  : result unit * machine * list event :=
  load_playlist fs (mkMachine (mkPlayer music_directory [] 0 false) g).

(** [run]: the banner, the loop until the interrupt, the shutdown. *)
Definition run (ins : list input) : M unit :=
  print "Audio player ready!" ;;
  dir <- get music_dir ;;
  print ("Music directory: " ++ dir)%string ;;
  print "Toggle GPIO 17 switch to start/stop playback" ;;
  print ("Press Ctrl+C to exit" ++ nl)%string ;;
  session ins ;;
  print (nl ++ "Shutting down...")%string ;;
  emit Stop ;;
  print "Goodbye!".

(** ** Reading a trace *)

Definition outcome {A : Type} (r : result A * machine * list event) : result A :=
  fst (fst r).
Definition after {A : Type} (r : result A * machine * list event) : machine :=
  snd (fst r).
Definition trace {A : Type} (r : result A * machine * list event) : list event :=
  snd r.

Definition is_command (ev : event) : bool :=
  match ev with
  | Print _ | Sleep => false
  | _ => true
  end.

(** The calls made on the Media Backend, prints and sleeps left out. *)
Definition commands (t : list event) : list event := filter is_command t.

(** The tracks loaded-and-played in a trace, in order: one for each
    [set_media(media_new(track))] followed by [play()]. *)
Fixpoint played (t : list event) : list string :=
  match t with
  | MediaNew a :: ((SetMedia b :: Play :: _) as rest) =>
      if String.eqb a b then a :: played rest else played rest
  | _ :: rest => played rest
  | [] => []
  end.

Definition is_print (line : string) (ev : event) : bool :=
  match ev with
  | Print l => String.eqb l line
  | _ => false
  end.

(** How many times [line] was printed. *)
Definition printed (line : string) (t : list event) : nat :=
  List.length (filter (is_print line) t).

Definition count_event (p : event -> bool) (t : list event) : nat :=
  List.length (filter p t).

Definition is_stop (ev : event) : bool :=
  match ev with Stop => true | _ => false end.
Definition is_get_state (ev : event) : bool :=
  match ev with GetState => true | _ => false end.

(** The invariant of the object: the cursor points into the playlist,
    or the playlist is empty. *)
Definition wf (p : RandomAudioPlayer) : Prop :=
  playlist p = [] \/ current_index p < List.length (playlist p).

(** [n] calls of [play_next] in a row. *)
Fixpoint next_calls (n : nat) : M unit :=
  match n with
  | 0 => ret tt
  | S k => play_next ;; next_calls k
  end.

(** The effects of loading and starting [track]. *)
Definition load_and_play (track : string) : list event :=
  [Print ("Playing: " ++ Str.basename track)%string;
   MediaNew track; SetMedia track; Play].

(** The cursor after one step through a playlist of the given length. *)
Definition next_index (p : RandomAudioPlayer) : nat :=
  (current_index p + 1) mod List.length (playlist p).

(** The machine after a successful [play_next]: the cursor has moved
    and, if it came back to 0, the playlist has been shuffled. *)
Definition advanced (w : machine) : machine :=
  let p := self w in
  if next_index p =? 0 then
    let (x, g) := Random.shuffle (playlist p) (random_state w) in
    mkMachine (mkPlayer (music_dir p) x (next_index p) (is_playing p)) g
  else
    mkMachine (mkPlayer (music_dir p) (playlist p) (next_index p) (is_playing p))
              (random_state w).

(** The machine with the flag [is_playing] set to [b]. *)
Definition with_playing (b : bool) (w : machine) : machine :=
  let p := self w in
  mkMachine (mkPlayer (music_dir p) (playlist p) (current_index p) b)
            (random_state w).

(** The statuses the loop takes for a finished track. *)
Definition finished (state : Vlc.State) : bool :=
  Vlc.State_eqb state Vlc.Ended || Vlc.State_eqb state Vlc.Stopped.

(** The machine with the playlist replaced by [x]. *)
Definition with_playlist (x : list string) (w : machine) : machine :=
  let p := self w in
  mkMachine (mkPlayer (music_dir p) x (current_index p) (is_playing p))
            (random_state w).

(** The test of the scan: [file.lower().endswith(SUPPORTED_FORMATS)]. *)
Definition is_audio (file : string) : bool :=
  Str.endswith (Str.lower file) SUPPORTED_FORMATS.

(** What the loops of [load_playlist] append for one triple of the walk. *)
Definition scan_triple (t : string * list string * list string) : list string :=
  let '(root, _, files) := t in map (Str.join root) (filter is_audio files).

(** What the two nested loops of [load_playlist] append, in order. *)
Definition scanned (dir : string) (fs : Fs.root) : list string :=
  flat_map scan_triple (Fs.walk dir fs).

(** ** The scanner's contract, in the words of the specification *)

Definition EXTENSIONS : list string :=
  ["mp3"; "wav"; "ogg"; "flac"; "m4a"; "aac"]%string.

(** [name] ends, whatever the case of its letters, in a dot and one of
    the recognised extensions. *)
Definition has_audio_extension (name : string) : Prop :=
  exists ext stem tail,
    In ext EXTENSIONS /\
    name = (stem ++ tail)%string /\
    Str.lower tail = ("." ++ ext)%string.

(** [file_at top es path name]: the tree with entries [es], rooted at
    [top], holds a file called [name] whose full path is [path]. *)
Inductive file_at : string -> list Fs.entry -> string -> string -> Prop :=
| file_here top es name :
    In (Fs.File name) es ->
    file_at top es (Str.join top name) name
| file_below top es d cs path name :
    In (Fs.Dir d cs) es ->
    file_at (Str.join top d) cs path name ->
    file_at top es path name.

(** The audio files found below the entry [e] of the directory [top]. *)
Definition below (top : string) (e : Fs.entry) (path : string) : Prop :=
  match e with
  | Fs.File _ => False
  | Fs.Dir d cs =>
      exists name, file_at (Str.join top d) cs path name /\ is_audio name = true
  end.

(** The audio files of a tree, entry by entry: a file that passes the
    test counts once, under its full path; a subdirectory counts for the
    audio files of its own entries; its own name never counts. *)
Fixpoint audio_files_entry (top : string) (e : Fs.entry) : list string :=
  match e with
  | Fs.File name => if is_audio name then [Str.join top name] else []
  | Fs.Dir d cs => flat_map (audio_files_entry (Str.join top d)) cs
  end.

Definition audio_files (top : string) (es : list Fs.entry) : list string :=
  flat_map (audio_files_entry top) es.

(** [dir_at top es path]: the tree holds a directory whose full path is
    [path]. *)
Inductive dir_at : string -> list Fs.entry -> string -> Prop :=
| dir_here top es d cs :
    In (Fs.Dir d cs) es ->
    dir_at top es (Str.join top d)
| dir_below top es d cs path :
    In (Fs.Dir d cs) es ->
    dir_at (Str.join top d) cs path ->
    dir_at top es path.

(** Names as a file system has them: not empty, without a slash, no two
    alike in one directory. *)
Fixpoint slashless (s : string) : bool :=
  match s with
  | EmptyString => true
  | String c r => negb (Ascii.eqb c "/") && slashless r
  end.

Definition name_ok (n : string) : Prop := n <> EmptyString /\ slashless n = true.

Definition entry_name (e : Fs.entry) : string :=
  match e with Fs.File n => n | Fs.Dir n _ => n end.

#[warnings="-register-all"]
Inductive entry_ok : Fs.entry -> Prop :=
| ok_file n : name_ok n -> entry_ok (Fs.File n)
| ok_dir n cs :
    name_ok n ->
    NoDup (map entry_name cs) ->
    Forall entry_ok cs ->
    entry_ok (Fs.Dir n cs).

Definition tree_ok (es : list Fs.entry) : Prop :=
  NoDup (map entry_name es) /\ Forall entry_ok es.

(** Paths relative to the root of the tree. *)
Inductive file_rel : list Fs.entry -> string -> Prop :=
| file_rel_here es n : In (Fs.File n) es -> file_rel es n
| file_rel_below es d cs r :
    In (Fs.Dir d cs) es -> file_rel cs r -> file_rel es (d ++ "/" ++ r)%string.

Inductive dir_rel : list Fs.entry -> string -> Prop :=
| dir_rel_here es d cs : In (Fs.Dir d cs) es -> dir_rel es d
| dir_rel_below es d cs r :
    In (Fs.Dir d cs) es -> dir_rel cs r -> dir_rel es (d ++ "/" ++ r)%string.

(** What [os.path.join] puts in front of the second argument. *)
Definition join_prefix (top : string) : string :=
  if (String.length top =? 0) || Str.ends_with_slash top then top
  else (top ++ "/")%string.

(** One pass: as many calls of [play_next] as the playlist has tracks. *)
Definition pass (w : machine) : result unit * machine * list event :=
  next_calls (List.length (playlist (self w))) w.

(** The machine at the end of a pass: shuffled, the cursor back at 0. *)
Definition wrapped (w : machine) : machine :=
  let p := self w in
  let (x, g) := Random.shuffle (playlist p) (random_state w) in
  mkMachine (mkPlayer (music_dir p) x 0 (is_playing p)) g.

(** ** Sample machines *)

(** The player as [__init__] leaves it on an existing, empty directory. *)
Definition empty_dir_player : machine :=
  after (init "/home/pi/Music/parents" (Fs.RootDir []) []).

(** On a directory with a single audio file. *)
Definition solo_player : machine :=
  after (init "/home/pi/Music/parents" (Fs.RootDir [Fs.File "a.mp3"]) []).

(** On the directory with [a.mp3], [b.txt] and [c.flac]. *)
Definition trio_player : machine :=
  after (init "/home/pi/Music/parents"
              (Fs.RootDir [Fs.File "a.mp3"; Fs.File "b.txt"; Fs.File "c.flac"])
              [1]).

(** ** Reading a session *)

Definition is_play (ev : event) : bool :=
  match ev with Play => true | _ => false end.
Definition is_set_media (ev : event) : bool :=
  match ev with SetMedia _ => true | _ => false end.
Definition is_media_new (ev : event) : bool :=
  match ev with MediaNew _ => true | _ => false end.

(** The event, if it hands a file to VLC, hands one of [pl]. *)
Definition loads_from (pl : list string) (ev : event) : Prop :=
  match ev with
  | MediaNew t | SetMedia t => In t pl
  | _ => True
  end.

(** The position of the switch after an input, given the one before. *)
Definition switch_after (b : bool) (i : input) : bool :=
  match i with
  | SwitchActivated => true
  | SwitchDeactivated => false
  | Poll _ => b
  end.

Definition last_switch (ins : list input) (b : bool) : bool :=
  fold_left switch_after ins b.

Definition is_activation (i : input) : bool :=
  match i with SwitchActivated => true | _ => false end.

(** What one handler, run under the invariant, is seen to respect. *)
Definition step_ok (w w' : machine) (t : list event) : Prop :=
  wf (self w') /\
  Permutation (playlist (self w')) (playlist (self w)) /\
  music_dir (self w') = music_dir (self w) /\
  Forall (loads_from (playlist (self w))) t /\
  count_event is_play t = count_event is_set_media t /\
  count_event is_set_media t = count_event is_media_new t /\
  count_event is_play t <= 1.

(** The inputs that can start a track: an activation, and a poll that
    finds the status [Ended] or [Stopped]. *)
Definition may_start (i : input) : bool :=
  match i with
  | SwitchActivated => true
  | SwitchDeactivated => false
  | Poll state => finished state
  end.



(** [r] is the name [n], or goes on below it. *)
Definition head_is (n r : string) : Prop :=
  r = n \/ exists r', r = (n ++ "/" ++ r')%string.

(** * Properties *)

(** ** [random.shuffle] permutes *)

Section Shuffle.

Context {A : Type}.
Implicit Types (x : list A) (g : Random.rng).

(** Writing [v] over the [a] stored at [i] trades an [a] for a [v]. *)
Lemma set_nth_perm i (v a : A) x :
  nth_error x i = Some a ->
  Permutation (v :: x) (a :: Random.set_nth i v x).
Proof.
  revert i; induction x as [|h t IH]; intros [|i] Hi; simpl in *;
    try discriminate.
  - injection Hi as ->. apply perm_swap.
  - rewrite perm_swap. rewrite (IH _ Hi). apply perm_swap.
Qed.

Lemma nth_error_set_nth_same i j (v : A) x :
  i < List.length x ->
  nth_error x j = Some v ->
  nth_error (Random.set_nth i v x) j = Some v.
Proof.
  revert i j; induction x as [|h t IH]; intros [|i] [|j] Hlt Hj;
    simpl in *; try discriminate; auto.
  apply IH; auto. lia.
Qed.

Lemma swap_perm i j x : Permutation (Random.swap i j x) x.
Proof.
  unfold Random.swap.
  destruct (nth_error x j) as [xj|] eqn:Hj; [|reflexivity].
  destruct (nth_error x i) as [xi|] eqn:Hi; [|reflexivity].
  assert (Hlt : i < List.length x)
    by (apply nth_error_Some; congruence).
  pose proof (set_nth_perm i xj xi x Hi) as P1.
  pose proof (nth_error_set_nth_same i j xj x Hlt Hj) as Hj'.
  pose proof (set_nth_perm j xi xj _ Hj') as P2.
  symmetry. apply Permutation_cons_inv with (a := xj).
  now rewrite P1.
Qed.

Lemma shuffle_loop_perm i x g :
  Permutation (fst (Random.shuffle_loop i x g)) x.
Proof.
  revert x g; induction i as [|i IH]; intros x g;
    cbn [Random.shuffle_loop]; [reflexivity|].
  destruct (Random.randbelow _ g) as [j g'].
  rewrite IH. apply swap_perm.
Qed.

(** The shuffled list holds the same elements, each as often. *)
Lemma shuffle_perm x g : Permutation (fst (Random.shuffle x g)) x.
Proof. apply shuffle_loop_perm. Qed.

Lemma shuffle_length x g :
  List.length (fst (Random.shuffle x g)) = List.length x.
Proof. apply Permutation_length, shuffle_perm. Qed.

End Shuffle.

(** ** The equations of the methods *)

Ltac open_machine w :=
  let d := fresh "dir" in
  let pl := fresh "pl" in
  let i := fresh "i" in
  let b := fresh "playing" in
  let g := fresh "g" in
  destruct w as [[d pl i b] g]; cbn [self random_state music_dir playlist
    current_index is_playing] in *.

Ltac run_monad :=
  cbv [bind ret get update emit print raise set_playlist set_current_index
       set_is_playing shuffle_playlist index];
  cbn [self random_state music_dir playlist current_index is_playing
       fst snd app negb nonempty].

Lemma play_next_empty w :
  playlist (self w) = [] ->
  play_next w = (Ok tt, w, [Print msg_no_tracks]).
Proof.
  open_machine w. intros ->. reflexivity.
Qed.

Lemma play_next_at w track :
  nth_error (playlist (self w)) (current_index (self w)) = Some track ->
  play_next w =
    (Ok tt, advanced w,
     load_and_play track
       ++ (if next_index (self w) =? 0 then [Print msg_reshuffle] else [])).
Proof.
  open_machine w. intros Hnth.
  destruct pl as [|t0 pl]; [destruct i; discriminate|].
  unfold play_next, advanced, next_index. run_monad. rewrite Hnth.
  run_monad.
  destruct ((i + 1) mod List.length (t0 :: pl) =? 0) eqn:E; run_monad.
  - destruct (Random.shuffle (t0 :: pl) g) as [x g']. reflexivity.
  - reflexivity.
Qed.

Lemma play_next_out_of_range w :
  playlist (self w) <> [] ->
  List.length (playlist (self w)) <= current_index (self w) ->
  play_next w = (Raise IndexError, w, []).
Proof.
  open_machine w. intros Hne Hle.
  destruct pl as [|t0 pl]; [congruence|].
  apply nth_error_None in Hle.
  unfold play_next. run_monad. rewrite Hle. reflexivity.
Qed.

Lemma start_playing_on w :
  is_playing (self w) = true -> start_playing w = (Ok tt, w, []).
Proof. open_machine w. intros ->. reflexivity. Qed.

Lemma start_playing_off w :
  is_playing (self w) = false ->
  start_playing w =
    (outcome (play_next (with_playing true w)),
     after (play_next (with_playing true w)),
     Print msg_switch_on :: trace (play_next (with_playing true w))).
Proof.
  open_machine w. intros ->.
  unfold start_playing, with_playing, outcome, after, trace. run_monad.
  destruct (play_next _) as [[[u|e] w'] t]; reflexivity.
Qed.

Lemma stop_playing_off w :
  is_playing (self w) = false -> stop_playing w = (Ok tt, w, []).
Proof. open_machine w. intros ->. reflexivity. Qed.

Lemma stop_playing_on w :
  is_playing (self w) = true ->
  stop_playing w = (Ok tt, with_playing false w, [Print msg_switch_off; Stop]).
Proof. open_machine w. intros ->. reflexivity. Qed.

Lemma poll_cycle_idle state w :
  is_playing (self w) = false -> poll_cycle state w = (Ok tt, w, [Sleep]).
Proof. open_machine w. intros ->. reflexivity. Qed.

Lemma poll_cycle_unfinished state w :
  is_playing (self w) = true ->
  finished state = false ->
  poll_cycle state w = (Ok tt, w, [GetState; Sleep]).
Proof.
  open_machine w. intros -> Hf. unfold poll_cycle. run_monad.
  fold (finished state). rewrite Hf. reflexivity.
Qed.

Lemma poll_cycle_finished state w :
  is_playing (self w) = true ->
  finished state = true ->
  poll_cycle state w =
    match play_next w with
    | (Ok _, w', t) => (Ok tt, w', GetState :: t ++ [Sleep])
    | (Raise e, w', t) => (Raise e, w', GetState :: t)
    end.
Proof.
  open_machine w. intros -> Hf. unfold poll_cycle. run_monad.
  fold (finished state). rewrite Hf.
  destruct (play_next _) as [[[u|e] w'] t]; run_monad; try reflexivity.
Qed.

(** ** The invariant, and that no method raises under it *)

Lemma next_index_lt p :
  playlist p <> [] -> next_index p < List.length (playlist p).
Proof.
  intros Hne. unfold next_index. apply Nat.mod_upper_bound.
  destruct (playlist p); [congruence | discriminate].
Qed.

Lemma advanced_index w :
  current_index (self (advanced w)) = next_index (self w).
Proof.
  unfold advanced. destruct (next_index (self w) =? 0); [|reflexivity].
  destruct (Random.shuffle _ _); reflexivity.
Qed.

Lemma advanced_is_playing w :
  is_playing (self (advanced w)) = is_playing (self w).
Proof.
  unfold advanced. destruct (next_index (self w) =? 0); [|reflexivity].
  destruct (Random.shuffle _ _); reflexivity.
Qed.

Lemma advanced_playlist w :
  playlist (self (advanced w)) =
    if next_index (self w) =? 0
    then fst (Random.shuffle (playlist (self w)) (random_state w))
    else playlist (self w).
Proof.
  unfold advanced. destruct (next_index (self w) =? 0); [|reflexivity].
  destruct (Random.shuffle _ _); reflexivity.
Qed.

Lemma advanced_random_state w :
  random_state (advanced w) =
    if next_index (self w) =? 0
    then snd (Random.shuffle (playlist (self w)) (random_state w))
    else random_state w.
Proof.
  unfold advanced. destruct (next_index (self w) =? 0); [|reflexivity].
  destruct (Random.shuffle _ _); reflexivity.
Qed.

Lemma advanced_perm w :
  Permutation (playlist (self (advanced w))) (playlist (self w)).
Proof.
  rewrite advanced_playlist. destruct (next_index (self w) =? 0).
  - apply shuffle_perm.
  - reflexivity.
Qed.

Lemma advanced_wf w :
  playlist (self w) <> [] -> wf (self (advanced w)).
Proof.
  intros Hne. right. rewrite advanced_index.
  rewrite (Permutation_length (advanced_perm w)).
  now apply next_index_lt.
Qed.

Lemma wf_cursor p :
  wf p -> playlist p <> [] ->
  exists track, nth_error (playlist p) (current_index p) = Some track.
Proof.
  intros [He|Hlt] Hne; [congruence|].
  destruct (nth_error (playlist p) (current_index p)) as [t|] eqn:E.
  - now exists t.
  - apply nth_error_None in E. lia.
Qed.

Lemma wf_with_playing b w : wf (self w) -> wf (self (with_playing b w)).
Proof. open_machine w. auto. Qed.

(** Under the invariant [play_next] returns, and keeps the invariant. *)
Lemma play_next_wf w :
  wf (self w) ->
  outcome (play_next w) = Ok tt /\ wf (self (after (play_next w))).
Proof.
  intros Hwf.
  destruct (playlist (self w)) as [|t0 pl] eqn:Hpl.
  - rewrite (play_next_empty w Hpl). auto.
  - assert (Hne : playlist (self w) <> []) by congruence.
    destruct (wf_cursor _ Hwf Hne) as [track Ht].
    rewrite (play_next_at w track Ht). split; [reflexivity|].
    now apply advanced_wf.
Qed.

Lemma play_next_is_playing w :
  is_playing (self (after (play_next w))) = is_playing (self w).
Proof.
  destruct (playlist (self w)) as [|t0 pl] eqn:Hpl.
  - now rewrite (play_next_empty w Hpl).
  - destruct (nth_error (playlist (self w)) (current_index (self w)))
      as [track|] eqn:Ht.
    + rewrite (play_next_at w track Ht). apply advanced_is_playing.
    + rewrite play_next_out_of_range; [reflexivity|congruence|].
      now apply nth_error_None.
Qed.

Lemma handle_wf i w :
  wf (self w) ->
  outcome (handle i w) = Ok tt /\ wf (self (after (handle i w))).
Proof.
  intros Hwf. destruct i as [| |state]; cbn [handle].
  - destruct (is_playing (self w)) eqn:Hp.
    + rewrite start_playing_on by assumption. auto.
    + rewrite start_playing_off by assumption. cbn [outcome after fst snd].
      apply play_next_wf. now apply wf_with_playing.
  - destruct (is_playing (self w)) eqn:Hp.
    + rewrite stop_playing_on by assumption. split; [reflexivity|].
      now apply wf_with_playing.
    + rewrite stop_playing_off by assumption. auto.
  - destruct (is_playing (self w)) eqn:Hp.
    + destruct (finished state) eqn:Hf.
      * rewrite poll_cycle_finished by assumption.
        destruct (play_next_wf w Hwf) as [Ho Hw'].
        destruct (play_next w) as [[[u|e] w'] t];
          cbn [outcome after fst snd] in *; [|discriminate].
        auto.
      * rewrite poll_cycle_unfinished by assumption. auto.
    + rewrite poll_cycle_idle by assumption. auto.
Qed.

Lemma session_cons i ins w :
  session (i :: ins) w =
    match handle i w with
    | (Ok _, w1, t1) =>
        let '(r, w2, t2) := session ins w1 in (r, w2, t1 ++ t2)
    | (Raise e, w1, t1) => (Raise e, w1, t1)
    end.
Proof. reflexivity. Qed.

Lemma session_wf ins w :
  wf (self w) ->
  outcome (session ins w) = Ok tt /\ wf (self (after (session ins w))).
Proof.
  revert w; induction ins as [|i ins IH]; intros w Hwf.
  - auto.
  - rewrite session_cons.
    destruct (handle_wf i w Hwf) as [Ho Hw1].
    destruct (handle i w) as [[[u|e] w1] t1];
      cbn [outcome after fst snd] in *; [|discriminate].
    specialize (IH w1 Hw1).
    destruct (session ins w1) as [[r w2] t2]. exact IH.
Qed.

(** ** The scan as a function *)

Lemma scan_files root files w :
  for_each files (fun file =>
      if Str.endswith (Str.lower file) SUPPORTED_FORMATS then
        let full_path := Str.join root file in
        pl <- get playlist ;;
        set_playlist (pl ++ [full_path])
      else ret tt) w
  = (Ok tt,
     with_playlist (playlist (self w)
                      ++ map (Str.join root) (filter is_audio files)) w,
     []).
Proof.
  revert w; induction files as [|f files IH]; intros w.
  - open_machine w. unfold with_playlist. cbn. now rewrite app_nil_r.
  - cbn [for_each filter]. unfold bind at 1. fold (is_audio f).
    destruct (is_audio f).
    + run_monad. rewrite IH. open_machine w. unfold with_playlist.
      cbn. now rewrite <- app_assoc.
    + run_monad. rewrite IH. reflexivity.
Qed.

Lemma scan_walk (triples : list (string * list string * list string)) w :
  for_each triples (fun '(root, _, files) =>
      for_each files (fun file =>
        if Str.endswith (Str.lower file) SUPPORTED_FORMATS then
          let full_path := Str.join root file in
          pl <- get playlist ;;
          set_playlist (pl ++ [full_path])
        else ret tt)) w
  = (Ok tt,
     with_playlist
       (playlist (self w) ++ flat_map scan_triple triples) w,
     []).
Proof.
  revert w; induction triples as [|[[root dirs] files] triples IH]; intros w.
  - open_machine w. unfold with_playlist. cbn. now rewrite app_nil_r.
  - cbn [for_each flat_map scan_triple]. unfold bind at 1. rewrite scan_files.
    rewrite IH. open_machine w. unfold with_playlist. cbn.
    now rewrite <- app_assoc.
Qed.

Lemma load_playlist_eq fs w :
  load_playlist fs w =
    let dir := music_dir (self w) in
    let scanning := Print ("Scanning " ++ dir ++ " for audio files...")%string in
    if Fs.exists_ fs then
      match scanned dir fs with
      | [] =>
          (Ok tt, with_playlist [] w,
           [scanning; Print ("No audio files found in " ++ dir)%string])
      | found =>
          let (x, g) := Random.shuffle found (random_state w) in
          (Ok tt, mkMachine (self (with_playlist x w)) g,
           [scanning;
            Print ("Found " ++ Str.of_nat (List.length x) ++ " audio files")%string])
      end
    else
      (Ok tt, with_playlist [] w, [scanning; Print (msg_missing dir)]).
Proof.
  open_machine w. unfold load_playlist. run_monad.
  destruct (Fs.exists_ fs); cbn [negb]; [|reflexivity].
  run_monad. rewrite scan_walk. unfold with_playlist. run_monad.
  fold (scanned dir fs).
  destruct (scanned dir fs) as [|p0 found]; [reflexivity|].
  run_monad.
  destruct (Random.shuffle (p0 :: found) g) as [x g']. reflexivity.
Qed.

(** ** Strings *)

Lemma substring_all s : substring 0 (String.length s) s = s.
Proof. induction s as [|c s IH]; simpl; [reflexivity | now rewrite IH]. Qed.

Lemma substring_app_r pre suf :
  substring (String.length pre) (String.length suf) (pre ++ suf) = suf.
Proof.
  induction pre as [|c pre IH]; simpl.
  - apply substring_all.
  - exact IH.
Qed.

Lemma substring_split s : forall m k,
  m + k = String.length s ->
  s = (substring 0 m s ++ substring m k s)%string.
Proof.
  induction s as [|c s IH]; intros [|m] k H; simpl in *.
  - subst k. reflexivity.
  - discriminate.
  - subst k. simpl. now rewrite substring_all.
  - injection H as H. simpl. f_equal. now apply IH.
Qed.

Lemma string_length_app a b :
  String.length (a ++ b) = String.length a + String.length b.
Proof. induction a as [|c a IH]; simpl; [reflexivity | now rewrite IH]. Qed.

(** [endswith1] decides "is a suffix of". *)
Lemma endswith1_spec s suffix :
  Str.endswith1 s suffix = true <-> exists pre, s = (pre ++ suffix)%string.
Proof.
  unfold Str.endswith1. rewrite andb_true_iff, Nat.leb_le, String.eqb_eq.
  split.
  - intros [Hle Hsub].
    exists (substring 0 (String.length s - String.length suffix) s).
    rewrite <- Hsub at 2. apply substring_split. lia.
  - intros [pre ->]. rewrite string_length_app. split; [lia|].
    replace (String.length pre + String.length suffix - String.length suffix)
      with (String.length pre) by lia.
    apply substring_app_r.
Qed.

Lemma lower_app a b : Str.lower (a ++ b) = (Str.lower a ++ Str.lower b)%string.
Proof. induction a as [|c a IH]; simpl; [reflexivity | now rewrite IH]. Qed.

Lemma lower_app_inv s : forall a b,
  Str.lower s = (a ++ b)%string ->
  exists a' b', s = (a' ++ b')%string /\ Str.lower a' = a /\ Str.lower b' = b.
Proof.
  induction s as [|c s IH]; intros a b H.
  - destruct a; [|discriminate]. exists EmptyString, EmptyString.
    simpl in *. auto.
  - destruct a as [|ca a].
    + exists EmptyString, (String c s). auto.
    + simpl in H. injection H as Hc H.
      destruct (IH _ _ H) as (a' & b' & -> & Ha & Hb).
      exists (String c a'), b'. simpl. subst. auto.
Qed.

Lemma SUPPORTED_FORMATS_dotted :
  SUPPORTED_FORMATS = map (fun ext => ("." ++ ext)%string) EXTENSIONS.
Proof. reflexivity. Qed.

(** The test of the code is the test of the specification. *)
Lemma is_audio_spec name : is_audio name = true <-> has_audio_extension name.
Proof.
  unfold is_audio, Str.endswith, has_audio_extension.
  rewrite existsb_exists, SUPPORTED_FORMATS_dotted. split.
  - intros (suffix & Hin & He). apply in_map_iff in Hin.
    destruct Hin as (ext & <- & Hin).
    apply endswith1_spec in He. destruct He as [pre He].
    apply lower_app_inv in He. destruct He as (stem & tail & -> & _ & Ht).
    now exists ext, stem, tail.
  - intros (ext & stem & tail & Hin & -> & Ht).
    exists ("." ++ ext)%string. split.
    + apply in_map_iff. now exists ext.
    + apply endswith1_spec. exists (Str.lower stem).
      now rewrite lower_app, Ht.
Qed.

(** ** The walk finds the files of the tree *)

Lemma entry_rect' (P : Fs.entry -> Prop)
  (Hfile : forall name, P (Fs.File name))
  (Hdir : forall name cs, Forall P cs -> P (Fs.Dir name cs)) :
  forall e, P e.
Proof.
  fix self 1. intros [name|name cs].
  - apply Hfile.
  - apply Hdir. induction cs as [|c cs IH]; constructor.
    + apply self.
    + exact IH.
Qed.

Lemma In_filenames name es : In name (Fs.filenames es) <-> In (Fs.File name) es.
Proof.
  unfold Fs.filenames. rewrite in_flat_map. split.
  - intros ([n|n cs] & Hin & H); simpl in H; [|contradiction].
    destruct H as [->|[]]. exact Hin.
  - intros Hin. exists (Fs.File name). simpl. auto.
Qed.

Lemma scanned_eq dir fs : scanned dir fs = flat_map scan_triple (Fs.walk dir fs).
Proof. reflexivity. Qed.

(** One level of the walk: the files of [es] itself, then what lies
    below each entry. *)
Lemma In_scan_level top es path :
  Forall (fun e => forall top path,
            In path (flat_map scan_triple (Fs.walk_entry top e))
            <-> below top e path) es ->
  In path (flat_map scan_triple (Fs.walk_dir top es))
  <-> exists name, file_at top es path name /\ is_audio name = true.
Proof.
  intros IH. unfold Fs.walk_dir. cbn [flat_map scan_triple].
  rewrite in_app_iff, in_map_iff, in_flat_map. split.
  - intros [(name & <- & Hin) | (t & Ht & Hp)].
    + apply filter_In in Hin. destruct Hin as [Hin Ha].
      exists name. split; [|exact Ha].
      apply file_here. now apply In_filenames.
    + apply in_flat_map in Ht. destruct Ht as (e & He & Ht).
      rewrite Forall_forall in IH.
      assert (Hb : below top e path).
      { apply (IH e He). apply in_flat_map. now exists t. }
      destruct e as [n|d cs]; [contradiction|].
      destruct Hb as (name & Hf & Ha). exists name. split; [|exact Ha].
      now apply file_below with d cs.
  - intros (name & Hf & Ha). inversion Hf; subst.
    + left. exists name. split; [reflexivity|].
      apply filter_In. split; [|exact Ha]. now apply In_filenames.
    + right. rewrite Forall_forall in IH.
      assert (Hb : below top (Fs.Dir d cs) path) by (now exists name).
      apply (IH _ H) in Hb. apply in_flat_map in Hb.
      destruct Hb as (t & Ht & Hp). exists t. split; [|exact Hp].
      apply in_flat_map. now exists (Fs.Dir d cs).
Qed.

Lemma In_walk_entry e : forall top path,
  In path (flat_map scan_triple (Fs.walk_entry top e)) <-> below top e path.
Proof.
  induction e as [name|d cs IH] using entry_rect'; intros top path.
  - simpl. tauto.
  - cbn [Fs.walk_entry below].
    change ((Str.join top d, Fs.dirnames cs, Fs.filenames cs)
              :: flat_map (Fs.walk_entry (Str.join top d)) cs)
      with (Fs.walk_dir (Str.join top d) cs).
    now apply In_scan_level.
Qed.

(** The scan holds exactly the paths of the files of the tree that pass
    the test. *)
Lemma In_scanned dir es path :
  In path (scanned dir (Fs.RootDir es))
  <-> exists name, file_at dir es path name /\ is_audio name = true.
Proof.
  rewrite scanned_eq. cbn [Fs.walk]. apply In_scan_level.
  apply Forall_forall. intros e _. apply In_walk_entry.
Qed.

(** ** Reading the traces of the methods *)

Lemma commands_app t1 t2 : commands (t1 ++ t2) = commands t1 ++ commands t2.
Proof. apply filter_app. Qed.

Lemma printed_app line t1 t2 :
  printed line (t1 ++ t2) = printed line t1 + printed line t2.
Proof. unfold printed. now rewrite filter_app, length_app. Qed.

Lemma count_event_app p t1 t2 :
  count_event p (t1 ++ t2) = count_event p t1 + count_event p t2.
Proof. unfold count_event. now rewrite filter_app, length_app. Qed.

Lemma played_load_and_play track rest :
  played (load_and_play track ++ rest) = track :: played rest.
Proof.
  unfold load_and_play. cbn [app played]. now rewrite String.eqb_refl.
Qed.

(** * The playlist *)

(** C3: on a non-empty playlist with the cursor in range, [play_next]
    returns, loads and starts exactly the track at the cursor, and moves
    the cursor to [(cursor + 1) mod length].  If the new cursor is 0 the
    playlist it leaves behind is already the shuffle of the old one (the
    reshuffle is logged and happens inside this call); otherwise the
    playlist and the random state are untouched. *)
Theorem next_returns_cursor_then_advances w :
  playlist (self w) <> [] ->
  current_index (self w) < List.length (playlist (self w)) ->
  exists track,
    nth_error (playlist (self w)) (current_index (self w)) = Some track /\
    outcome (play_next w) = Ok tt /\
    played (trace (play_next w)) = [track] /\
    current_index (self (after (play_next w)))
      = (current_index (self w) + 1) mod List.length (playlist (self w)) /\
    Permutation (playlist (self (after (play_next w)))) (playlist (self w)) /\
    if current_index (self (after (play_next w))) =? 0 then
      (playlist (self (after (play_next w))), random_state (after (play_next w)))
        = Random.shuffle (playlist (self w)) (random_state w) /\
      printed msg_reshuffle (trace (play_next w)) = 1
    else
      playlist (self (after (play_next w))) = playlist (self w) /\
      random_state (after (play_next w)) = random_state w /\
      printed msg_reshuffle (trace (play_next w)) = 0.
Proof.
  intros Hne Hlt.
  destruct (wf_cursor (self w) (or_intror Hlt) Hne) as [track Ht].
  exists track. rewrite (play_next_at w track Ht).
  cbn [outcome after trace fst snd].
  split; [exact Ht|]. split; [reflexivity|].
  split.
  { rewrite played_load_and_play. now destruct (next_index (self w) =? 0). }
  split; [apply advanced_index|].
  split; [apply advanced_perm|].
  rewrite advanced_index, advanced_playlist, advanced_random_state.
  rewrite printed_app.
  destruct (next_index (self w) =? 0).
  - split; [|reflexivity]. now destruct (Random.shuffle _ _).
  - auto.
Qed.

Lemma next_returns_cursor_then_advances_witness :
  exists track,
    nth_error ["a.mp3"; "b.mp3"]%string 1 = Some track /\
    played (trace (play_next
      (mkMachine (mkPlayer "/music" ["a.mp3"; "b.mp3"]%string 1 true) [1])))
    = [track].
Proof.
  destruct (next_returns_cursor_then_advances
              (mkMachine (mkPlayer "/music" ["a.mp3"; "b.mp3"]%string 1 true) [1]))
    as (track & H1 & _ & H3 & _).
  - discriminate.
  - cbn. lia.
  - exists track. split; assumption.
Defined.

(** C9: with an empty playlist [play_next] returns at once: the machine
    (playlist, cursor and flag included) is the one it was given and
    nothing is sent to the player; only the message is printed. *)
Theorem play_next_empty_changes_nothing w :
  playlist (self w) = [] ->
  outcome (play_next w) = Ok tt /\
  after (play_next w) = w /\
  commands (trace (play_next w)) = [] /\
  trace (play_next w) = [Print msg_no_tracks].
Proof.
  intros He. rewrite (play_next_empty w He). repeat split.
Qed.

Lemma play_next_empty_changes_nothing_witness :
  after (play_next (mkMachine (mkPlayer "/music" [] 0 true) [3; 1]))
  = mkMachine (mkPlayer "/music" [] 0 true) [3; 1].
Proof.
  apply (play_next_empty_changes_nothing
           (mkMachine (mkPlayer "/music" [] 0 true) [3; 1])).
  reflexivity.
Defined.

(** ** A pass through the playlist *)

Lemma next_calls_S k w :
  next_calls (S k) w =
    match play_next w with
    | (Ok _, w1, t1) =>
        let '(r, w2, t2) := next_calls k w1 in (r, w2, t1 ++ t2)
    | (Raise e, w1, t1) => (Raise e, w1, t1)
    end.
Proof. reflexivity. Qed.

Lemma skipn_cursor {A : Type} (x : list A) i a :
  nth_error x i = Some a -> skipn i x = a :: skipn (S i) x.
Proof.
  revert i; induction x as [|h t IH]; intros [|i] H; simpl in *;
    try discriminate.
  - now injection H as ->.
  - now apply IH.
Qed.

Lemma advanced_last w :
  current_index (self w) + 1 = List.length (playlist (self w)) ->
  next_index (self w) = 0 /\ advanced w = wrapped w.
Proof.
  intros H. assert (E : next_index (self w) = 0).
  { unfold next_index. rewrite H. apply Nat.Div0.mod_same. }
  split; [exact E|]. unfold advanced, wrapped. rewrite E. reflexivity.
Qed.

Lemma advanced_inner w :
  current_index (self w) + 1 < List.length (playlist (self w)) ->
  next_index (self w) = current_index (self w) + 1 /\
  advanced w =
    mkMachine (mkPlayer (music_dir (self w)) (playlist (self w))
                        (current_index (self w) + 1) (is_playing (self w)))
              (random_state w).
Proof.
  intros H. assert (E : next_index (self w) = current_index (self w) + 1).
  { unfold next_index. now apply Nat.mod_small. }
  split; [exact E|]. unfold advanced. rewrite E.
  replace (current_index (self w) + 1 =? 0) with false; [reflexivity|].
  symmetry. apply Nat.eqb_neq. lia.
Qed.

(** From any cursor, the calls that remain in the pass play the rest of
    the playlist in order and end on the shuffled playlist, cursor 0. *)
Lemma next_calls_to_wrap k : forall w,
  1 <= k ->
  current_index (self w) + k = List.length (playlist (self w)) ->
  outcome (next_calls k w) = Ok tt /\
  after (next_calls k w) = wrapped w /\
  played (trace (next_calls k w))
    = skipn (current_index (self w)) (playlist (self w)).
Proof.
  induction k as [|k IH]; intros w Hk Hlen; [lia|].
  assert (Hlt : current_index (self w) < List.length (playlist (self w))) by lia.
  assert (Hne : playlist (self w) <> []).
  { intros E. rewrite E in Hlt. simpl in Hlt. lia. }
  destruct (wf_cursor (self w) (or_intror Hlt) Hne) as [track Ht].
  rewrite next_calls_S, (play_next_at w track Ht).
  rewrite (skipn_cursor _ _ _ Ht).
  destruct k as [|k].
  - destruct (advanced_last w) as [E Ha]; [lia|]. rewrite E, Ha.
    cbn [next_calls ret outcome after trace fst snd Nat.eqb].
    repeat split.
    rewrite <- app_assoc, played_load_and_play.
    rewrite skipn_all2 by lia. reflexivity.
  - destruct (advanced_inner w) as [E Ha]; [lia|].
    rewrite E, Ha. set (w1 := mkMachine _ _).
    destruct (IH w1) as (Ho & Haf & Hp); [lia | cbn; lia |].
    destruct (next_calls (S k) w1) as [[r w2] t2].
    cbn [outcome after trace fst snd] in *.
    split; [exact Ho|]. split; [exact Haf|].
    replace (current_index (self w) + 1 =? 0) with false
      by (symmetry; apply Nat.eqb_neq; lia).
    rewrite app_nil_r, played_load_and_play, Hp. cbn.
    now rewrite Nat.add_1_r.
Qed.

Lemma pass_from_zero w :
  playlist (self w) <> [] ->
  current_index (self w) = 0 ->
  outcome (pass w) = Ok tt /\
  after (pass w) = wrapped w /\
  played (trace (pass w)) = playlist (self w).
Proof.
  intros Hne H0. unfold pass.
  destruct (next_calls_to_wrap (List.length (playlist (self w))) w) as (A & B & C).
  - destruct (playlist (self w)); [congruence | simpl; lia].
  - now rewrite H0.
  - rewrite H0 in C. auto.
Qed.

Lemma wrapped_facts w :
  current_index (self (wrapped w)) = 0 /\
  Permutation (playlist (self (wrapped w))) (playlist (self w)) /\
  is_playing (self (wrapped w)) = is_playing (self w).
Proof.
  unfold wrapped.
  pose proof (shuffle_perm (playlist (self w)) (random_state w)) as P.
  destruct (Random.shuffle _ _) as [x g]. cbn in *. auto.
Qed.

(** C4: starting at the beginning of a pass (cursor 0, as [__init__]
    and every completed pass leave it) on a playlist of [n >= 1]
    tracks, [n] consecutive calls of [play_next] all return and
    play the tracks of the playlist, each as often as the playlist holds
    it (in fact in playlist order).  They leave the cursor at 0 on a
    permutation of the same tracks, so that call [n + 1] plays a track of
    the same multiset and the next [n] calls are again a permutation of
    it. *)
Theorem pass_plays_each_track_once w :
  playlist (self w) <> [] ->
  current_index (self w) = 0 ->
  outcome (pass w) = Ok tt /\
  Permutation (played (trace (pass w))) (playlist (self w)) /\
  played (trace (pass w)) = playlist (self w) /\
  current_index (self (after (pass w))) = 0 /\
  Permutation (playlist (self (after (pass w)))) (playlist (self w)) /\
  (exists track,
      played (trace (play_next (after (pass w)))) = [track] /\
      nth_error (playlist (self (after (pass w)))) 0 = Some track /\
      In track (playlist (self w))) /\
  outcome (pass (after (pass w))) = Ok tt /\
  Permutation (played (trace (pass (after (pass w))))) (playlist (self w)).
Proof.
  intros Hne H0.
  destruct (pass_from_zero w Hne H0) as (Ho & Ha & Hp).
  destruct (wrapped_facts w) as (W0 & WP & _).
  rewrite Ha, Hp.
  assert (Hne' : playlist (self (wrapped w)) <> []).
  { intros E. rewrite E in WP. apply Permutation_nil in WP. congruence. }
  destruct (pass_from_zero (wrapped w) Hne' W0) as (Ho' & _ & Hp').
  split; [exact Ho|]. split; [reflexivity|]. split; [reflexivity|].
  split; [exact W0|]. split; [exact WP|].
  split; [|split; [exact Ho' | now rewrite Hp']].
  destruct (playlist (self (wrapped w))) as [|track rest] eqn:E;
    [congruence|].
  exists track.
  assert (Ht : nth_error (playlist (self (wrapped w)))
                 (current_index (self (wrapped w))) = Some track)
    by (rewrite W0, E; reflexivity).
  rewrite (play_next_at _ track Ht). cbn [trace snd].
  rewrite played_load_and_play. split; [|split].
  - now destruct (next_index (self (wrapped w)) =? 0).
  - reflexivity.
  - apply (Permutation_in track WP). now left.
Qed.

Lemma pass_plays_each_track_once_witness :
  Permutation
    (played (trace (pass
       (mkMachine (mkPlayer "/music" ["a.mp3"; "b.mp3"; "c.flac"]%string 0 true)
                  [1; 0]))))
    ["a.mp3"; "b.mp3"; "c.flac"]%string.
Proof.
  apply (pass_plays_each_track_once
           (mkMachine (mkPlayer "/music" ["a.mp3"; "b.mp3"; "c.flac"]%string 0 true)
                      [1; 0])).
  - discriminate.
  - reflexivity.
Defined.

(** * The controller *)

Lemma finished_true state :
  finished state = true <-> state = Vlc.Ended \/ state = Vlc.Stopped.
Proof.
  destruct state; cbn; split; intros H; auto;
    try discriminate; destruct H; discriminate.
Qed.

Lemma finished_false state :
  finished state = false <-> state <> Vlc.Ended /\ state <> Vlc.Stopped.
Proof.
  destruct state; cbn; split; intros H; auto;
    try discriminate; try (split; discriminate);
    destruct H; congruence.
Qed.

Lemma start_playing_is_playing w :
  is_playing (self (after (start_playing w))) = true.
Proof.
  destruct (is_playing (self w)) eqn:Hp.
  - now rewrite start_playing_on.
  - rewrite start_playing_off by assumption. cbn [after fst snd].
    fold (after (play_next (with_playing true w))).
    rewrite play_next_is_playing. now destruct w as [[? ? ? ?] ?].
Qed.

Lemma poll_cycle_is_playing state w :
  is_playing (self (after (poll_cycle state w))) = is_playing (self w).
Proof.
  destruct (is_playing (self w)) eqn:Hp.
  - destruct (finished state) eqn:Hf.
    + rewrite poll_cycle_finished by assumption.
      pose proof (play_next_is_playing w) as H.
      destruct (play_next w) as [[[u|e] w'] t]; cbn [after fst snd] in *;
        congruence.
    + now rewrite poll_cycle_unfinished.
  - now rewrite poll_cycle_idle.
Qed.

Lemma session_polls_is_playing states : forall w,
  is_playing (self (after (session (map Poll states) w)))
  = is_playing (self w).
Proof.
  induction states as [|state states IH]; intros w; [reflexivity|].
  cbn [map]. rewrite session_cons. cbn [handle].
  pose proof (poll_cycle_is_playing state w) as H.
  destruct (poll_cycle state w) as [[[u|e] w1] t1]; cbn [after fst snd] in *.
  - specialize (IH w1).
    destruct (session (map Poll states) w1) as [[r w2] t2].
    cbn [after fst snd] in *. congruence.
  - exact H.
Qed.

(** While playing, polls that find the track unfinished only ask for the
    status and sleep: nothing moves. *)
Lemma session_unfinished_polls states : forall w,
  is_playing (self w) = true ->
  Forall (fun state => finished state = false) states ->
  session (map Poll states) w
  = (Ok tt, w, flat_map (fun _ => [GetState; Sleep]) states).
Proof.
  induction states as [|state states IH]; intros w Hp Hall; [reflexivity|].
  inversion Hall as [|? ? Hf Hall']; subst.
  cbn [map flat_map]. rewrite session_cons. cbn [handle].
  rewrite poll_cycle_unfinished by assumption.
  now rewrite (IH w Hp Hall').
Qed.

(** While idle, polls only sleep. *)
Lemma session_idle_polls states : forall w,
  is_playing (self w) = false ->
  session (map Poll states) w = (Ok tt, w, map (fun _ => Sleep) states).
Proof.
  induction states as [|state states IH]; intros w Hp; [reflexivity|].
  cbn [map]. rewrite session_cons. cbn [handle].
  rewrite poll_cycle_idle by assumption. now rewrite (IH w Hp).
Qed.

(** While playing on an empty playlist, a poll that takes the track for
    finished calls [play_next], which prints its message again. *)
Lemma poll_cycle_empty state w :
  is_playing (self w) = true ->
  playlist (self w) = [] ->
  poll_cycle state w
  = (Ok tt, w,
     if finished state then [GetState; Print msg_no_tracks; Sleep]
     else [GetState; Sleep]).
Proof.
  intros Hp He. destruct (finished state) eqn:Hf.
  - rewrite poll_cycle_finished by assumption.
    now rewrite (play_next_empty w He).
  - now rewrite poll_cycle_unfinished.
Qed.

Lemma session_empty_polls states : forall w,
  is_playing (self w) = true ->
  playlist (self w) = [] ->
  session (map Poll states) w
  = (Ok tt, w,
     flat_map (fun state =>
                 if finished state then [GetState; Print msg_no_tracks; Sleep]
                 else [GetState; Sleep]) states).
Proof.
  induction states as [|state states IH]; intros w Hp He; [reflexivity|].
  cbn [map flat_map]. rewrite session_cons. cbn [handle].
  rewrite poll_cycle_empty by assumption. now rewrite (IH w Hp He).
Qed.

Lemma play_next_no_status_check w :
  count_event is_get_state (trace (play_next w)) = 0
  /\ count_event is_stop (trace (play_next w)) = 0.
Proof.
  destruct (playlist (self w)) as [|t0 pl] eqn:Hpl.
  - rewrite (play_next_empty w Hpl). auto.
  - destruct (nth_error (playlist (self w)) (current_index (self w)))
      as [track|] eqn:Ht.
    + rewrite (play_next_at w track Ht). cbn [trace snd].
      rewrite !count_event_app.
      destruct (next_index (self w) =? 0); auto.
    + rewrite play_next_out_of_range; [auto|congruence|].
      now apply nth_error_None.
Qed.

(** ** Track completion *)

(** C1, as stated, fails on an empty playlist: the controller is PLAYING
    (the switch was activated on an empty directory), the player reports
    [Ended], and the poll cycle asks for the status and loads nothing. *)
Lemma poll_ended_on_empty_playlist_plays_nothing :
  is_playing (self (after (session [SwitchActivated] empty_dir_player))) = true /\
  commands (trace (poll_cycle Vlc.Ended
                     (after (session [SwitchActivated] empty_dir_player))))
    = [GetState] /\
  played (trace (poll_cycle Vlc.Ended
                   (after (session [SwitchActivated] empty_dir_player))))
    = [].
Proof. repeat split. Qed.

(** C1, amended: in a PLAYING state, when the polled status is [Ended]
    or [Stopped] and the playlist has a track at the cursor, one poll
    cycle returns, asks the status once and issues exactly one
    load-and-play, for that track, and the state stays PLAYING; when the
    playlist is empty it issues none and nothing changes.  Any other
    status ([Paused], [Playing], ...) issues none and changes nothing. *)
Theorem poll_finished_plays_next w state :
  is_playing (self w) = true ->
  (state = Vlc.Ended \/ state = Vlc.Stopped ->
     (forall track,
        nth_error (playlist (self w)) (current_index (self w)) = Some track ->
        outcome (poll_cycle state w) = Ok tt /\
        commands (trace (poll_cycle state w))
          = [GetState; MediaNew track; SetMedia track; Play] /\
        played (trace (poll_cycle state w)) = [track] /\
        is_playing (self (after (poll_cycle state w))) = true) /\
     (playlist (self w) = [] ->
        commands (trace (poll_cycle state w)) = [GetState] /\
        after (poll_cycle state w) = w)) /\
  (state <> Vlc.Ended -> state <> Vlc.Stopped ->
     commands (trace (poll_cycle state w)) = [GetState] /\
     after (poll_cycle state w) = w).
Proof.
  intros Hp. split.
  - intros Hf. apply finished_true in Hf. split.
    + intros track Ht.
      rewrite (poll_cycle_finished state w Hp Hf), (play_next_at w track Ht).
      cbn [outcome after trace fst snd].
      rewrite advanced_is_playing.
      split; [reflexivity|]. split; [|split; [|exact Hp]].
      * destruct (next_index (self w) =? 0); reflexivity.
      * cbn [played]. rewrite <- app_assoc, played_load_and_play.
        now destruct (next_index (self w) =? 0).
    + intros He. rewrite (poll_cycle_empty state w Hp He), Hf. auto.
  - intros H1 H2.
    assert (Hf : finished state = false) by (now apply finished_false).
    rewrite (poll_cycle_unfinished state w Hp Hf). auto.
Qed.

Lemma poll_finished_plays_next_witness :
  played (trace (poll_cycle Vlc.Ended
                   (mkMachine (mkPlayer "/music" ["a.mp3"; "b.mp3"]%string 1 true) [])))
  = ["b.mp3"%string].
Proof.
  apply (poll_finished_plays_next
           (mkMachine (mkPlayer "/music" ["a.mp3"; "b.mp3"]%string 1 true) [])
           Vlc.Ended).
  - reflexivity.
  - now left.
  - reflexivity.
Defined.

(** ** The switch *)

(** C2, as stated, fails on an empty playlist: two activations in a row
    from IDLE issue no load-and-play at all, not exactly one. *)
Lemma two_activations_on_empty_playlist_play_nothing :
  is_playing (self empty_dir_player) = false /\
  played (trace (session [SwitchActivated; SwitchActivated] empty_dir_player))
    = [] /\
  commands (trace (session [SwitchActivated; SwitchActivated] empty_dir_player))
    = [].
Proof. repeat split. Qed.

(** C2, amended: in every state, an activation that follows an
    activation, with only poll cycles in between, changes nothing and
    issues nothing.  Two activations in a row issue at most one
    load-and-play in total; exactly one, for the track at the cursor,
    when the first arrives in IDLE with a track at the cursor.  A
    deactivation in IDLE changes nothing and issues nothing. *)
Theorem switch_edges_are_idempotent w :
  start_playing (after (start_playing w))
    = (Ok tt, after (start_playing w), []) /\
  (forall states,
     start_playing (after (session (SwitchActivated :: map Poll states) w))
     = (Ok tt, after (session (SwitchActivated :: map Poll states) w), [])) /\
  List.length
    (played (trace (session [SwitchActivated; SwitchActivated] w))) <= 1 /\
  (is_playing (self w) = false ->
   forall track,
     nth_error (playlist (self w)) (current_index (self w)) = Some track ->
     played (trace (session [SwitchActivated; SwitchActivated] w)) = [track]) /\
  (is_playing (self w) = false -> stop_playing w = (Ok tt, w, [])).
Proof.
  assert (Hsecond : forall w', is_playing (self w') = true ->
            session [SwitchActivated] w' = (Ok tt, w', [])).
  { intros w' Hp. rewrite session_cons. cbn [handle].
    now rewrite start_playing_on. }
  assert (Htwice : trace (session [SwitchActivated; SwitchActivated] w)
                   = trace (start_playing w)).
  { rewrite session_cons. cbn [handle].
    pose proof (start_playing_is_playing w) as Hp.
    destruct (start_playing w) as [[[u|e] w1] t1];
      cbn [after trace fst snd] in *; [|reflexivity].
    rewrite (Hsecond w1 Hp). cbn. apply app_nil_r. }
  split; [|split; [|split; [|split]]].
  - apply start_playing_on, start_playing_is_playing.
  - intros states. apply start_playing_on.
    rewrite session_cons. cbn [handle].
    pose proof (start_playing_is_playing w) as Hp.
    destruct (start_playing w) as [[[u|e] w1] t1];
      cbn [after fst snd] in *; [|exact Hp].
    pose proof (session_polls_is_playing states w1) as Hs.
    destruct (session (map Poll states) w1) as [[r w2] t2].
    cbn [after fst snd] in *. congruence.
  - rewrite Htwice. destruct (is_playing (self w)) eqn:Hp.
    + rewrite start_playing_on by assumption. cbn. lia.
    + rewrite start_playing_off by assumption. cbn [trace snd played].
      fold (trace (play_next (with_playing true w))).
      set (w1 := with_playing true w).
      destruct (playlist (self w1)) as [|t0 pl] eqn:Hpl.
      * rewrite (play_next_empty w1 Hpl). cbn. lia.
      * destruct (nth_error (playlist (self w1)) (current_index (self w1)))
          as [track|] eqn:Ht.
        -- rewrite (play_next_at w1 track Ht). cbn [trace snd].
           rewrite played_load_and_play.
           destruct (next_index (self w1) =? 0); cbn; lia.
        -- rewrite play_next_out_of_range; [cbn; lia|congruence|].
           now apply nth_error_None.
  - intros Hp track Ht. rewrite Htwice.
    rewrite start_playing_off by assumption. cbn [trace snd played].
    fold (trace (play_next (with_playing true w))).
    assert (Ht' : nth_error (playlist (self (with_playing true w)))
                    (current_index (self (with_playing true w))) = Some track)
      by (destruct w as [[? ? ? ?] ?]; exact Ht).
    rewrite (play_next_at _ track Ht'). cbn [trace snd].
    rewrite played_load_and_play.
    now destruct (next_index (self (with_playing true w)) =? 0).
  - apply stop_playing_off.
Qed.

Lemma switch_edges_are_idempotent_witness :
  played (trace (session [SwitchActivated; SwitchActivated] trio_player))
  = ["/home/pi/Music/parents/a.mp3"%string].
Proof.
  apply (switch_edges_are_idempotent trio_player); reflexivity.
Defined.

(** ** A track that fails to load *)

(** C5, as stated, fails: the controller is PLAYING the first of two
    tracks, the player reports [Error] on three polls in a row, and the
    controller loads nothing and stays where it was. *)
Lemma error_status_stalls_on_the_track :
  is_playing (self (after (session [SwitchActivated] trio_player))) = true /\
  played (trace (session [SwitchActivated] trio_player))
    = ["/home/pi/Music/parents/a.mp3"%string] /\
  played (trace (session [Poll Vlc.Error; Poll Vlc.Error; Poll Vlc.Error]
                   (after (session [SwitchActivated] trio_player))))
    = [] /\
  after (session [Poll Vlc.Error; Poll Vlc.Error; Poll Vlc.Error]
           (after (session [SwitchActivated] trio_player)))
    = after (session [SwitchActivated] trio_player).
Proof. repeat split. Qed.

(** C5, amended: in a PLAYING state, however many poll cycles find the
    status [Error], each only asks for the status: no track is loaded or
    started and the playlist, the cursor and the session state stay as
    they were.  The loop advances on [Ended] and [Stopped] only. *)
Theorem error_status_never_advances w n :
  is_playing (self w) = true ->
  outcome (session (repeat (Poll Vlc.Error) n) w) = Ok tt /\
  after (session (repeat (Poll Vlc.Error) n) w) = w /\
  commands (trace (session (repeat (Poll Vlc.Error) n) w))
    = repeat GetState n /\
  played (trace (session (repeat (Poll Vlc.Error) n) w)) = [].
Proof.
  intros Hp.
  assert (E : repeat (Poll Vlc.Error) n = map Poll (repeat Vlc.Error n))
    by (induction n; cbn; congruence).
  rewrite E, session_unfinished_polls; [|exact Hp|].
  - cbn [outcome after trace fst snd]. clear E. repeat split.
    + induction n as [|n IH]; [reflexivity|].
      cbn [repeat flat_map]. rewrite commands_app, IH. reflexivity.
    + induction n as [|n IH]; [reflexivity|].
      cbn [repeat flat_map app played]. exact IH.
  - apply Forall_forall. intros s Hs. apply repeat_spec in Hs. now subst.
Qed.

Lemma error_status_never_advances_witness :
  after (session (repeat (Poll Vlc.Error) 4)
           (after (session [SwitchActivated] trio_player)))
  = after (session [SwitchActivated] trio_player).
Proof.
  apply (error_status_never_advances
           (after (session [SwitchActivated] trio_player)) 4).
  reflexivity.
Defined.

(** ** An empty playlist *)

(** C6, as stated, fails: on an empty playlist the switch goes on, off
    and on again (the stop leaves the player [Stopped]), and each of the
    three polls that follow prints the message once more. *)
Lemma empty_playlist_logged_on_every_poll :
  playlist (self empty_dir_player) = [] /\
  printed msg_no_tracks
    (trace (session [Poll Vlc.Stopped; Poll Vlc.Stopped; Poll Vlc.Stopped]
              (after (session [SwitchActivated; SwitchDeactivated;
                               SwitchActivated] empty_dir_player))))
    = 3 /\
  printed msg_no_tracks
    (trace (session [SwitchActivated; SwitchDeactivated; SwitchActivated;
                     Poll Vlc.Stopped; Poll Vlc.Stopped; Poll Vlc.Stopped]
              empty_dir_player))
    = 5.
Proof. repeat split. Qed.

(** C6, amended: on an empty playlist an activation in IDLE returns,
    turns the state to PLAYING, sends nothing to the player and prints
    the message once.  Of the poll cycles that follow, each one that
    finds the status [Ended] or [Stopped] prints it once more, and the
    others print nothing; none loads or starts a track. *)
Theorem empty_playlist_activation w :
  playlist (self w) = [] ->
  is_playing (self w) = false ->
  outcome (start_playing w) = Ok tt /\
  is_playing (self (after (start_playing w))) = true /\
  playlist (self (after (start_playing w))) = [] /\
  commands (trace (start_playing w)) = [] /\
  printed msg_no_tracks (trace (start_playing w)) = 1 /\
  forall states,
    printed msg_no_tracks
      (trace (session (map Poll states) (after (start_playing w))))
      = List.length (filter finished states) /\
    commands (trace (session (map Poll states) (after (start_playing w))))
      = repeat GetState (List.length states) /\
    after (session (map Poll states) (after (start_playing w)))
      = after (start_playing w).
Proof.
  intros He Hp.
  assert (He1 : playlist (self (with_playing true w)) = [])
    by (destruct w as [[? ? ? ?] ?]; exact He).
  rewrite (start_playing_off w Hp), (play_next_empty _ He1).
  cbn [outcome after trace fst snd].
  split; [reflexivity|]. split; [reflexivity|]. split; [exact He1|].
  split; [reflexivity|]. split; [reflexivity|].
  intros states.
  rewrite session_empty_polls; [|reflexivity|exact He1].
  cbn [after trace fst snd]. split; [|split; [|reflexivity]].
  - induction states as [|state states IH]; [reflexivity|].
    cbn [flat_map filter]. rewrite printed_app, IH.
    destruct (finished state); reflexivity.
  - induction states as [|state states IH]; [reflexivity|].
    cbn [flat_map]. rewrite commands_app, IH.
    destruct (finished state); reflexivity.
Qed.

Lemma empty_playlist_activation_witness :
  printed msg_no_tracks (trace (start_playing empty_dir_player)) = 1.
Proof.
  apply (empty_playlist_activation empty_dir_player); reflexivity.
Defined.

(** ** Polling *)

Lemma count_status_checks state w :
  count_event is_get_state (trace (poll_cycle state w))
  = if is_playing (self w) then 1 else 0.
Proof.
  destruct (is_playing (self w)) eqn:Hp.
  - destruct (finished state) eqn:Hf.
    + rewrite poll_cycle_finished by assumption.
      destruct (play_next_no_status_check w) as [H _].
      destruct (play_next w) as [[[u|e] w'] t]; cbn [trace snd] in *.
      * change (GetState :: t ++ [Sleep]) with ([GetState] ++ t ++ [Sleep]).
        rewrite !count_event_app, H. reflexivity.
      * change (GetState :: t) with ([GetState] ++ t).
        rewrite count_event_app, H. reflexivity.
    + now rewrite poll_cycle_unfinished.
  - now rewrite poll_cycle_idle.
Qed.

Lemma count_event_pos p t :
  0 < count_event p t <-> exists ev, In ev t /\ p ev = true.
Proof.
  unfold count_event. split.
  - intros H. destruct (filter p t) as [|ev rest] eqn:E; [simpl in H; lia|].
    exists ev. apply filter_In. rewrite E. now left.
  - intros (ev & Hin & Hp).
    assert (Hf : In ev (filter p t)) by (apply filter_In; auto).
    destruct (filter p t); [contradiction | simpl; lia].
Qed.

(** C7: a poll cycle asks the player for its status exactly once when
    the state is PLAYING and not at all when it is IDLE.  A deactivation
    in PLAYING sends exactly one [stop]; after a deactivation the state
    is IDLE, and the poll cycles that follow, whatever the player would
    report, send nothing to the player: no status check. *)
Theorem status_is_checked_iff_playing w :
  (forall state,
     count_event is_get_state (trace (poll_cycle state w))
     = if is_playing (self w) then 1 else 0) /\
  (forall state,
     In GetState (trace (poll_cycle state w)) <-> is_playing (self w) = true) /\
  (is_playing (self w) = true ->
     commands (trace (stop_playing w)) = [Stop] /\
     count_event is_stop (trace (stop_playing w)) = 1) /\
  is_playing (self (after (stop_playing w))) = false /\
  (forall states,
     commands (trace (session (map Poll states) (after (stop_playing w))))
     = [] /\
     count_event is_get_state
       (trace (session (map Poll states) (after (stop_playing w)))) = 0).
Proof.
  assert (Hidle : is_playing (self (after (stop_playing w))) = false).
  { destruct (is_playing (self w)) eqn:Hp.
    - rewrite (stop_playing_on w Hp). now destruct w as [[? ? ? ?] ?].
    - now rewrite (stop_playing_off w Hp). }
  split; [|split; [|split; [|split]]].
  - intros state. apply count_status_checks.
  - intros state. pose proof (count_status_checks state w) as Hc. split.
    + intros Hin. destruct (is_playing (self w)); [reflexivity|].
      assert (0 < count_event is_get_state (trace (poll_cycle state w))).
      { apply count_event_pos. now exists GetState. }
      lia.
    + intros Hp. rewrite Hp in Hc.
      assert (H : 0 < count_event is_get_state (trace (poll_cycle state w)))
        by lia.
      apply count_event_pos in H. destruct H as (ev & Hin & Hev).
      destruct ev; try discriminate. exact Hin.
  - intros Hp. rewrite (stop_playing_on w Hp). split; reflexivity.
  - exact Hidle.
  - intros states. rewrite (session_idle_polls states _ Hidle).
    cbn [trace snd]. split.
    + induction states as [|s states IH]; [reflexivity | exact IH].
    + induction states as [|s states IH]; [reflexivity | exact IH].
Qed.

Lemma status_is_checked_iff_playing_witness :
  commands (trace (stop_playing (after (session [SwitchActivated] trio_player))))
    = [Stop] /\
  commands (trace (session (map Poll [Vlc.Playing; Vlc.Ended; Vlc.Stopped])
                     (after (stop_playing
                               (after (session [SwitchActivated] trio_player))))))
    = [].
Proof.
  split.
  - apply (status_is_checked_iff_playing
             (after (session [SwitchActivated] trio_player))).
    reflexivity.
  - apply (status_is_checked_iff_playing
             (after (session [SwitchActivated] trio_player))).
Defined.

(** ** Stopping and starting again *)

(** C10, as stated, fails on a playlist of one track: the switch goes
    on, off and on again, and the track that was interrupted is loaded
    and played a second time.  It fails on two tracks as well, when the
    interrupted track ended a pass and the reshuffle put it first. *)
Lemma interrupted_track_is_played_again :
  played (trace (session [SwitchActivated] solo_player))
    = ["/home/pi/Music/parents/a.mp3"%string] /\
  played (trace (session [SwitchActivated; SwitchDeactivated; SwitchActivated]
                   solo_player))
    = ["/home/pi/Music/parents/a.mp3"; "/home/pi/Music/parents/a.mp3"]%string /\
  played (trace (session [SwitchActivated; Poll Vlc.Ended; SwitchDeactivated;
                          SwitchActivated] trio_player))
    = ["/home/pi/Music/parents/a.mp3"; "/home/pi/Music/parents/c.flac";
       "/home/pi/Music/parents/c.flac"]%string.
Proof. repeat split. Qed.

(** C10, amended: a deactivation in PLAYING returns, sends one [stop]
    and changes the flag only: the playlist, its order, the cursor and
    the random state are as before.  The activation that follows loads
    anew and starts the track at the cursor.  So on, off, on from IDLE
    plays the track at the cursor and then the one after it in the
    current order, when there is one after it. *)
Theorem stop_changes_only_the_flag w :
  (is_playing (self w) = true ->
     outcome (stop_playing w) = Ok tt /\
     commands (trace (stop_playing w)) = [Stop] /\
     after (stop_playing w) = with_playing false w /\
     playlist (self (after (stop_playing w))) = playlist (self w) /\
     current_index (self (after (stop_playing w))) = current_index (self w) /\
     random_state (after (stop_playing w)) = random_state w /\
     is_playing (self (after (stop_playing w))) = false) /\
  (is_playing (self w) = true ->
   forall track,
     nth_error (playlist (self w)) (current_index (self w)) = Some track ->
     commands (trace (start_playing (after (stop_playing w))))
     = [MediaNew track; SetMedia track; Play]) /\
  (is_playing (self w) = false ->
   forall track track',
     nth_error (playlist (self w)) (current_index (self w)) = Some track ->
     nth_error (playlist (self w)) (current_index (self w) + 1) = Some track' ->
     played (trace (session [SwitchActivated; SwitchDeactivated;
                             SwitchActivated] w))
     = [track; track']).
Proof.
  split; [|split].
  - intros Hp. rewrite (stop_playing_on w Hp). cbn [outcome after trace fst snd].
    destruct w as [[? ? ? ?] ?]. repeat split.
  - intros Hp track Ht. rewrite (stop_playing_on w Hp). cbn [after fst snd].
    rewrite start_playing_off by (now destruct w as [[? ? ? ?] ?]).
    cbn [trace snd]. fold (trace (play_next (with_playing true (with_playing false w)))).
    assert (Ht' : nth_error
                    (playlist (self (with_playing true (with_playing false w))))
                    (current_index (self (with_playing true (with_playing false w))))
                  = Some track) by (destruct w as [[? ? ? ?] ?]; exact Ht).
    rewrite (play_next_at _ track Ht'). cbn [trace snd].
    now destruct (next_index _ =? 0).
  - intros Hp track track' Ht Ht'.
    assert (Hlt : current_index (self w) + 1 < List.length (playlist (self w)))
      by (apply nth_error_Some; congruence).
    destruct w as [[dir pl i playing] g]. cbn in Hp, Ht, Ht', Hlt. subst playing.
    rewrite session_cons. cbn [handle].
    rewrite start_playing_off by reflexivity.
    set (w1 := with_playing true _).
    assert (Ht1 : nth_error (playlist (self w1)) (current_index (self w1))
                  = Some track) by exact Ht.
    rewrite (play_next_at w1 track Ht1).
    destruct (advanced_inner w1) as [E Ha]; [exact Hlt|].
    rewrite E, Ha. cbn [outcome after trace fst snd].
    replace (current_index (self w1) + 1 =? 0) with false
      by (symmetry; apply Nat.eqb_neq; lia).
    rewrite session_cons. cbn [handle].
    rewrite stop_playing_on by reflexivity.
    rewrite session_cons. cbn [handle].
    rewrite start_playing_off by reflexivity.
    set (w2 := with_playing true _).
    assert (Ht2 : nth_error (playlist (self w2)) (current_index (self w2))
                  = Some track') by exact Ht'.
    rewrite (play_next_at w2 track' Ht2).
    cbn [outcome after trace fst snd session for_each ret].
    unfold load_and_play. cbn [app played].
    rewrite !String.eqb_refl.
    now destruct (next_index (self w2) =? 0).
Qed.

Lemma stop_changes_only_the_flag_witness :
  played (trace (session [SwitchActivated; SwitchDeactivated; SwitchActivated]
                   trio_player))
  = ["/home/pi/Music/parents/a.mp3"; "/home/pi/Music/parents/c.flac"]%string.
Proof.
  apply (stop_changes_only_the_flag trio_player); reflexivity.
Defined.

(** * The scanner *)

(** The walk visits directory by directory, the tree is read entry by
    entry: the same paths, each as often, in another order. *)
Lemma scan_level_perm top es :
  Forall (fun e => forall top,
            Permutation (flat_map scan_triple (Fs.walk_entry top e))
                        (match e with
                         | Fs.File _ => []
                         | Fs.Dir _ _ => audio_files_entry top e
                         end)) es ->
  Permutation (flat_map scan_triple (Fs.walk_dir top es)) (audio_files top es).
Proof.
  unfold Fs.walk_dir, audio_files. cbn [flat_map scan_triple].
  induction es as [|e es IH]; intros Hall; [reflexivity|].
  inversion Hall as [|? ? He Hes]; subst. specialize (IH Hes).
  cbn [flat_map]. rewrite flat_map_app.
  destruct e as [name|d cs].
  - cbn [Fs.filenames flat_map app Fs.walk_entry audio_files_entry filter].
    fold (Fs.filenames es).
    destruct (is_audio name); cbn [map app]; [constructor|]; exact IH.
  - cbn [Fs.filenames flat_map app]. fold (Fs.filenames es).
    rewrite <- (He top), <- IH.
    rewrite !app_assoc. apply Permutation_app_tail, Permutation_app_comm.
Qed.

Lemma walk_entry_perm e : forall top,
  Permutation (flat_map scan_triple (Fs.walk_entry top e))
              (match e with
               | Fs.File _ => []
               | Fs.Dir _ _ => audio_files_entry top e
               end).
Proof.
  induction e as [name|d cs IH] using entry_rect'; intros top.
  - reflexivity.
  - cbn [Fs.walk_entry audio_files_entry].
    change ((Str.join top d, Fs.dirnames cs, Fs.filenames cs)
              :: flat_map (Fs.walk_entry (Str.join top d)) cs)
      with (Fs.walk_dir (Str.join top d) cs).
    now apply scan_level_perm.
Qed.

Lemma scanned_perm dir es :
  Permutation (scanned dir (Fs.RootDir es)) (audio_files dir es).
Proof.
  rewrite scanned_eq. cbn [Fs.walk]. apply scan_level_perm.
  apply Forall_forall. intros e _. apply walk_entry_perm.
Qed.

(** After [__init__] the playlist is a permutation of the scan. *)
Lemma init_playlist dir fs g :
  outcome (init dir fs g) = Ok tt /\
  Permutation (playlist (self (after (init dir fs g))))
              (if Fs.exists_ fs then scanned dir fs else []) /\
  current_index (self (after (init dir fs g))) = 0 /\
  is_playing (self (after (init dir fs g))) = false.
Proof.
  unfold init. rewrite load_playlist_eq.
  cbn [self music_dir random_state].
  destruct (Fs.exists_ fs).
  - destruct (scanned dir fs) as [|p0 found] eqn:E.
    + repeat split. reflexivity.
    + pose proof (shuffle_perm (p0 :: found) g) as P.
      destruct (Random.shuffle (p0 :: found) g) as [x g'].
      repeat split. exact P.
  - repeat split. reflexivity.
Qed.

Lemma init_wf dir fs g : wf (self (after (init dir fs g))).
Proof.
  destruct (init_playlist dir fs g) as (_ & _ & H0 & _).
  destruct (playlist (self (after (init dir fs g)))) as [|t0 pl] eqn:E.
  - now left.
  - right. rewrite H0, E. simpl. lia.
Qed.

(** [run] under the invariant: the loop never raises, and at the
    interrupt the player is stopped, after everything the session sent. *)
Lemma run_stops_at_exit ins w :
  wf (self w) ->
  outcome (run ins w) = Ok tt /\
  after (run ins w) = after (session ins w) /\
  commands (trace (run ins w)) = commands (trace (session ins w)) ++ [Stop].
Proof.
  intros Hwf. destruct (session_wf ins w Hwf) as [Ho _].
  unfold run. run_monad.
  destruct (session ins w) as [[[u|e] w'] t];
    cbn [outcome after trace fst snd] in *; [|discriminate].
  repeat split. cbn [commands filter is_command].
  fold (commands (t ++ [Print (nl ++ "Shutting down..."); Stop; Print "Goodbye!"])).
  now rewrite commands_app.
Qed.

(** ** Paths of directories and paths of files are apart *)

Lemma slashless_app_slash d r : slashless (d ++ "/" ++ r) = false.
Proof.
  change (d ++ "/" ++ r)%string with (d ++ String "/" r)%string.
  induction d as [|c d IH]; [reflexivity|].
  cbn [append slashless]. rewrite IH. apply andb_false_r.
Qed.

Lemma split_at_first_slash d1 : forall d2 r1 r2,
  slashless d1 = true -> slashless d2 = true ->
  (d1 ++ "/" ++ r1 = d2 ++ "/" ++ r2)%string ->
  d1 = d2 /\ r1 = r2.
Proof.
  induction d1 as [|c d1 IH]; intros [|c2 d2] r1 r2 H1 H2 E; simpl in *.
  - injection E as ->. auto.
  - injection E as <- _. simpl in H2. discriminate.
  - injection E as -> _. simpl in H1. discriminate.
  - injection E as -> E. apply andb_true_iff in H1, H2.
    destruct (IH d2 r1 r2) as [-> ->]; tauto.
Qed.

Lemma string_app_inv_head a : forall b c, (a ++ b = a ++ c)%string -> b = c.
Proof.
  induction a as [|x a IH]; intros b c E; simpl in E; [exact E|].
  injection E as E. now apply IH.
Qed.

Lemma string_app_assoc a b c : ((a ++ b) ++ c = a ++ (b ++ c))%string.
Proof. induction a as [|x a IH]; simpl; [reflexivity | now rewrite IH]. Qed.

(** A non-empty slashless name at the end leaves no slash at the end. *)
Lemma ends_with_slash_app a : forall d,
  d <> EmptyString -> slashless d = true ->
  Str.ends_with_slash (a ++ d) = false.
Proof.
  intros d Hne Hs. apply not_true_is_false. intros H.
  apply endswith1_spec in H. destruct H as [p E].
  assert (Hd : exists d', d = (d' ++ "/")%string).
  { clear Hs. revert p E. induction a as [|c a IH]; intros p E; simpl in E.
    - now exists p.
    - destruct p as [|c' p]; simpl in E.
      + injection E as _ E. destruct a; destruct d; simpl in E;
          try discriminate. congruence.
      + injection E as _ E. now apply (IH p). }
  destruct Hd as [d' ->].
  change (d' ++ "/")%string with (d' ++ "/" ++ "")%string in Hs.
  rewrite slashless_app_slash in Hs. discriminate.
Qed.

Lemma join_name top n :
  name_ok n -> Str.join top n = (join_prefix top ++ n)%string.
Proof.
  intros [Hne Hs]. unfold Str.join, join_prefix.
  destruct n as [|c n]; [congruence|].
  simpl in Hs. apply andb_true_iff in Hs. destruct Hs as [Hc _].
  cbn [Str.starts_with_slash]. apply negb_true_iff in Hc. rewrite Hc.
  destruct ((String.length top =? 0) || Str.ends_with_slash top);
    [reflexivity|].
  now rewrite string_app_assoc.
Qed.

Lemma join_prefix_join top d :
  name_ok d ->
  join_prefix (Str.join top d) = (join_prefix top ++ d ++ "/")%string.
Proof.
  intros Hd. rewrite (join_name top d Hd). destruct Hd as [Hne Hs].
  unfold join_prefix at 1.
  rewrite (ends_with_slash_app (join_prefix top) d Hne Hs).
  replace (String.length (join_prefix top ++ d) =? 0) with false.
  - cbn [orb]. now rewrite string_app_assoc.
  - symmetry. apply Nat.eqb_neq. rewrite string_length_app.
    destruct d; [congruence | simpl; lia].
Qed.

Lemma entry_ok_children es d cs :
  Forall entry_ok es -> In (Fs.Dir d cs) es ->
  name_ok d /\ tree_ok cs.
Proof.
  intros Hall Hin. rewrite Forall_forall in Hall.
  specialize (Hall _ Hin). inversion Hall; subst. unfold tree_ok. auto.
Qed.

Lemma entry_ok_file es n :
  Forall entry_ok es -> In (Fs.File n) es -> name_ok n.
Proof.
  intros Hall Hin. rewrite Forall_forall in Hall.
  specialize (Hall _ Hin). now inversion Hall.
Qed.

Lemma file_at_rel top es path name :
  file_at top es path name ->
  tree_ok es ->
  exists r, file_rel es r /\ path = (join_prefix top ++ r)%string.
Proof.
  induction 1 as [top es name Hin | top es d cs path name Hin Hf IH];
    intros [Hnd Hall].
  - exists name. split; [now constructor|].
    apply join_name. now apply entry_ok_file with es.
  - destruct (entry_ok_children _ _ _ Hall Hin) as [Hd Hcs].
    destruct (IH Hcs) as (r & Hr & ->).
    exists (d ++ "/" ++ r)%string. split; [now apply file_rel_below with cs|].
    rewrite (join_prefix_join top d Hd).
    now rewrite !string_app_assoc.
Qed.

Lemma dir_at_rel top es path :
  dir_at top es path ->
  tree_ok es ->
  exists r, dir_rel es r /\ path = (join_prefix top ++ r)%string.
Proof.
  induction 1 as [top es d cs Hin | top es d cs path Hin Hf IH];
    intros [Hnd Hall].
  - exists d. split; [now apply dir_rel_here with cs|].
    apply join_name. now apply (entry_ok_children _ _ _ Hall Hin).
  - destruct (entry_ok_children _ _ _ Hall Hin) as [Hd Hcs].
    destruct (IH Hcs) as (r & Hr & ->).
    exists (d ++ "/" ++ r)%string. split; [now apply dir_rel_below with cs|].
    rewrite (join_prefix_join top d Hd).
    now rewrite !string_app_assoc.
Qed.

Lemma same_name_same_entry es : forall e1 e2,
  NoDup (map entry_name es) ->
  In e1 es -> In e2 es -> entry_name e1 = entry_name e2 -> e1 = e2.
Proof.
  induction es as [|e es IH]; intros e1 e2 Hnd H1 H2 E; [contradiction|].
  cbn [map] in Hnd. inversion Hnd as [|? ? Hnotin Hnd']; subst.
  destruct H1 as [->|H1], H2 as [->|H2]; auto.
  - exfalso. apply Hnotin. rewrite E. now apply in_map.
  - exfalso. apply Hnotin. rewrite <- E. now apply in_map.
Qed.

Lemma file_rel_not_dir_rel es r :
  file_rel es r -> tree_ok es -> dir_rel es r -> False.
Proof.
  induction 1 as [es n Hin | es d cs r Hin Hf IH]; intros [Hnd Hall] Hd.
  - pose proof (entry_ok_file _ _ Hall Hin) as [_ Hs].
    inversion Hd as [? d' cs' Hin' | ? d' cs' r' Hin' Hr']; subst.
    + pose proof (same_name_same_entry _ _ _ Hnd Hin Hin' eq_refl).
      discriminate.
    + rewrite slashless_app_slash in Hs. discriminate.
  - destruct (entry_ok_children _ _ _ Hall Hin) as [[_ Hsd] Hcs].
    remember (d ++ "/" ++ r)%string as path eqn:E.
    destruct Hd as [es d' cs' Hin' | es d' cs' r' Hin' Hr'].
    + destruct (entry_ok_children _ _ _ Hall Hin') as [[_ Hs'] _].
      rewrite E, slashless_app_slash in Hs'. discriminate.
    + destruct (entry_ok_children _ _ _ Hall Hin') as [[_ Hs'] _].
      destruct (split_at_first_slash _ _ _ _ Hs' Hsd E) as [-> ->].
      pose proof (same_name_same_entry _ _ _ Hnd Hin Hin' eq_refl) as Esame.
      injection Esame as <-. now apply IH.
Qed.

(** In a tree named as a file system names it, no path is the path of a
    file and of a directory. *)
Lemma file_at_not_dir_at top es path name :
  tree_ok es -> file_at top es path name -> dir_at top es path -> False.
Proof.
  intros Hok Hf Hd.
  destruct (file_at_rel _ _ _ _ Hf Hok) as (r1 & Hr1 & E1).
  destruct (dir_at_rel _ _ _ Hd Hok) as (r2 & Hr2 & E2).
  rewrite E1 in E2. apply string_app_inv_head in E2. subst r2.
  exact (file_rel_not_dir_rel _ _ Hr1 Hok Hr2).
Qed.

(** X1: from [__init__] on, whatever the directory holds, whatever the
    random draws and the inputs, no handler raises ([playlist[current_index]]
    never fails) and the cursor stays inside the playlist, or the
    playlist is empty. *)
Corollary session_never_raises dir fs g ins :
  outcome (session ins (after (init dir fs g))) = Ok tt /\
  wf (self (after (session ins (after (init dir fs g))))).
Proof. apply session_wf, init_wf. Qed.

(** The first pass after [__init__]: the scan left the cursor at 0, so
    as many calls as there are tracks play each scanned file once. *)
Corollary first_pass_after_init dir fs g :
  playlist (self (after (init dir fs g))) <> [] ->
  outcome (pass (after (init dir fs g))) = Ok tt /\
  Permutation (played (trace (pass (after (init dir fs g)))))
              (scanned dir fs).
Proof.
  intros Hne.
  destruct (init_playlist dir fs g) as (_ & P & H0 & _).
  destruct (pass_from_zero _ Hne H0) as (Ho & _ & Hp).
  split; [exact Ho|]. rewrite Hp.
  destruct (Fs.exists_ fs); [exact P|].
  apply Permutation_sym, Permutation_nil in P. congruence.
Qed.

(** C8: for every tree of entries at the configured directory,
    [__init__] returns and the playlist holds exactly the full paths of
    the files of the tree, at any depth, whose name ends, whatever the
    case of its letters, in a dot and one of the six extensions: each
    such file once, a permutation of the tree's audio files, and
    nothing that does not come from a file entry; when the names are
    those of a file system (not empty, no slash, no two alike in a
    directory) the path of a directory is never in it.  If the directory
    does not exist, [__init__] still returns, the playlist is empty and
    the error line is printed once. *)
Theorem scanner_finds_exactly_the_audio_files dir g :
  (forall es,
     outcome (init dir (Fs.RootDir es) g) = Ok tt /\
     (forall path,
        In path (playlist (self (after (init dir (Fs.RootDir es) g))))
        <-> exists name, file_at dir es path name /\ has_audio_extension name) /\
     Permutation (playlist (self (after (init dir (Fs.RootDir es) g))))
                 (audio_files dir es) /\
     (tree_ok es ->
      forall path,
        dir_at dir es path ->
        ~ In path (playlist (self (after (init dir (Fs.RootDir es) g)))))) /\
  outcome (init dir Fs.NoSuchPath g) = Ok tt /\
  playlist (self (after (init dir Fs.NoSuchPath g))) = [] /\
  printed (msg_missing dir) (trace (init dir Fs.NoSuchPath g)) = 1.
Proof.
  split.
  - intros es.
    destruct (init_playlist dir (Fs.RootDir es) g) as (Ho & P & _).
    cbn [Fs.exists_] in P. split; [exact Ho|].
    assert (Hscan : forall path,
               In path (playlist (self (after (init dir (Fs.RootDir es) g))))
               <-> exists name, file_at dir es path name /\ is_audio name = true).
    { intros path. rewrite <- In_scanned. split; apply Permutation_in.
      - exact P.
      - now symmetry. }
    split; [|split].
    + intros path. rewrite Hscan. split; intros (name & Hf & Ha);
        exists name; (split; [exact Hf | now apply is_audio_spec]).
    + rewrite P. apply scanned_perm.
    + intros Hok path Hd Hin. apply Hscan in Hin.
      destruct Hin as (name & Hf & _).
      exact (file_at_not_dir_at dir es path name Hok Hf Hd).
  - unfold init. rewrite load_playlist_eq. cbn. repeat split.
    unfold printed. cbn. now rewrite String.eqb_refl.
Qed.

Lemma scanner_finds_exactly_the_audio_files_witness :
  ~ In "/srv/music/live.mp3"%string
      (playlist (self (after (init "/srv/music/"
         (Fs.RootDir [Fs.Dir "live.mp3" [Fs.File "Set1.FLAC"];
                      Fs.File "b.Ogg"]) [1])))).
Proof.
  apply (scanner_finds_exactly_the_audio_files "/srv/music/" [1]).
  - split.
    + repeat constructor; cbn; intuition discriminate.
    + repeat constructor; cbn; intuition discriminate.
  - apply (dir_here "/srv/music/"
                    [Fs.Dir "live.mp3" [Fs.File "Set1.FLAC"]; Fs.File "b.Ogg"]
                    "live.mp3" [Fs.File "Set1.FLAC"]).
    now left.
Defined.

(** The scenario of the specification: of [a.mp3], [b.txt] and [c.flac]
    the scanner keeps the two audio files. *)
Example scan_of_three_files :
  playlist (self trio_player)
  = ["/home/pi/Music/parents/a.mp3"; "/home/pi/Music/parents/c.flac"]%string.
Proof. reflexivity. Qed.

(** A directory is never listed, whatever its name; the files below it
    are, under the joined path, and the case of the extension is
    ignored. *)
Example scan_skips_directory_names :
  playlist (self (after (init "/srv/music/"
     (Fs.RootDir [Fs.Dir "live.mp3" [Fs.File "notes.txt"; Fs.File "Set1.FLAC"];
                  Fs.File "mp3"; Fs.File "b.Ogg"]) [1])))
  = ["/srv/music/b.Ogg"; "/srv/music/live.mp3/Set1.FLAC"]%string.
Proof. reflexivity. Qed.

(** * Whole sessions *)

Lemma step_ok_quiet w t :
  wf (self w) ->
  Forall (fun ev => is_play ev = false /\ is_set_media ev = false
                    /\ is_media_new ev = false) t ->
  step_ok w w t.
Proof.
  intros Hwf Hq. unfold step_ok.
  assert (Hc : count_event is_play t = 0 /\ count_event is_set_media t = 0
               /\ count_event is_media_new t = 0 /\
               Forall (loads_from (playlist (self w))) t).
  { induction Hq as [|ev t (H1 & H2 & H3) _ (I1 & I2 & I3 & I4)].
    - repeat split. constructor.
    - unfold count_event in *. cbn [filter]. rewrite H1, H2, H3.
      repeat split; auto. constructor; [|exact I4].
      destruct ev; try exact I; discriminate. }
  destruct Hc as (C1 & C2 & C3 & C4). rewrite C1, C2, C3.
  repeat split; auto.
Qed.

Lemma step_ok_extend w w' t pre post :
  step_ok w w' t ->
  Forall (fun ev => is_play ev = false /\ is_set_media ev = false
                    /\ is_media_new ev = false) (pre ++ post) ->
  step_ok w w' (pre ++ t ++ post).
Proof.
  intros (H1 & H2 & H3 & H4 & H5 & H6 & H7) Hq.
  apply Forall_app in Hq. destruct Hq as [Hpre Hpost].
  assert (Q : forall l,
             Forall (fun ev => is_play ev = false /\ is_set_media ev = false
                               /\ is_media_new ev = false) l ->
             count_event is_play l = 0 /\ count_event is_set_media l = 0 /\
             count_event is_media_new l = 0 /\
             Forall (loads_from (playlist (self w))) l).
  { intros l Hl. induction Hl as [|ev l (A1 & A2 & A3) _ (I1 & I2 & I3 & I4)].
    - repeat split. constructor.
    - unfold count_event in *. cbn [filter]. rewrite A1, A2, A3.
      repeat split; auto. constructor; [|exact I4].
      destruct ev; try exact I; discriminate. }
  destruct (Q pre Hpre) as (P1 & P2 & P3 & P4).
  destruct (Q post Hpost) as (Q1 & Q2 & Q3 & Q4).
  unfold step_ok. rewrite !count_event_app, P1, P2, P3, Q1, Q2, Q3.
  rewrite !Nat.add_0_r. cbn [Nat.add].
  repeat split; auto.
  apply Forall_app. split; [exact P4|]. apply Forall_app. now split.
Qed.

Lemma play_next_step w :
  wf (self w) ->
  outcome (play_next w) = Ok tt /\
  is_playing (self (after (play_next w))) = is_playing (self w) /\
  step_ok w (after (play_next w)) (trace (play_next w)).
Proof.
  intros Hwf. split; [apply (play_next_wf w Hwf)|].
  split; [apply play_next_is_playing|].
  destruct (playlist (self w)) as [|t0 pl] eqn:Hpl.
  - rewrite (play_next_empty w Hpl). cbn [after trace fst snd].
    apply step_ok_quiet; [exact Hwf|]. repeat constructor.
  - assert (Hne : playlist (self w) <> []) by congruence.
    destruct (wf_cursor _ Hwf Hne) as [track Ht].
    rewrite (play_next_at w track Ht). cbn [after trace fst snd].
    unfold step_ok. rewrite !count_event_app.
    split; [now apply advanced_wf|]. split; [apply advanced_perm|].
    split.
    { unfold advanced. destruct (next_index (self w) =? 0); [|reflexivity].
      now destruct (Random.shuffle _ _). }
    split.
    { apply Forall_app. split.
      - pose proof (nth_error_In _ _ Ht) as Hin.
        unfold load_and_play. repeat constructor; exact Hin.
      - destruct (next_index (self w) =? 0); repeat constructor. }
    destruct (next_index (self w) =? 0); repeat split; cbn; lia.
Qed.

Lemma wf_with_playing_inv b w : wf (self (with_playing b w)) -> wf (self w).
Proof. destruct w as [[? ? ? ?] ?]. auto. Qed.

Lemma step_ok_with_playing b w w' t :
  step_ok (with_playing b w) w' t -> step_ok w w' t.
Proof. destruct w as [[? ? ? ?] ?]. auto. Qed.

(** Each handler, under the invariant: it returns, the flag is where
    the switch says, and the step respects [step_ok]. *)
Lemma handle_step i w :
  wf (self w) ->
  outcome (handle i w) = Ok tt /\
  is_playing (self (after (handle i w))) = switch_after (is_playing (self w)) i /\
  step_ok w (after (handle i w)) (trace (handle i w)).
Proof.
  intros Hwf. destruct i as [| |state]; cbn [handle switch_after].
  - destruct (is_playing (self w)) eqn:Hp.
    + rewrite start_playing_on by assumption. cbn [outcome after trace fst snd].
      split; [reflexivity|]. split; [assumption|]. apply step_ok_quiet; [exact Hwf | constructor].
    + rewrite start_playing_off by assumption. cbn [outcome after trace fst snd].
      destruct (play_next_step (with_playing true w)) as (Ho & Hf & Hs);
        [now apply wf_with_playing|].
      split; [exact Ho|]. split.
      * rewrite Hf. now destruct w as [[? ? ? ?] ?].
      * apply step_ok_with_playing with true.
        change (Print msg_switch_on :: ?t) with ([Print msg_switch_on] ++ t).
        rewrite <- (app_nil_r (trace _)).
        apply step_ok_extend; [exact Hs | repeat constructor].
  - destruct (is_playing (self w)) eqn:Hp.
    + rewrite stop_playing_on by assumption. cbn [outcome after trace fst snd].
      split; [reflexivity|]. split; [now destruct w as [[? ? ? ?] ?]|].
      assert (H : step_ok (with_playing false w) (with_playing false w)
                    [Print msg_switch_off; Stop]).
      { apply step_ok_quiet; [now apply wf_with_playing | repeat constructor]. }
      destruct w as [[? ? ? ?] ?]. exact H.
    + rewrite stop_playing_off by assumption. cbn [outcome after trace fst snd].
      split; [reflexivity|]. split; [assumption|]. apply step_ok_quiet; [exact Hwf | constructor].
  - destruct (is_playing (self w)) eqn:Hp.
    + destruct (finished state) eqn:Hf.
      * rewrite poll_cycle_finished by assumption.
        destruct (play_next_step w Hwf) as (Ho & Hfl & Hs).
        destruct (play_next w) as [[[u|e] w'] t];
          cbn [outcome after trace fst snd] in *; [|discriminate].
        split; [reflexivity|]. split; [congruence|].
        change (GetState :: t ++ [Sleep]) with ([GetState] ++ t ++ [Sleep]).
        apply step_ok_extend; [exact Hs | repeat constructor].
      * rewrite poll_cycle_unfinished by assumption.
        cbn [outcome after trace fst snd]. repeat split; auto.
        apply step_ok_quiet; [exact Hwf | repeat constructor].
    + rewrite poll_cycle_idle by assumption.
      cbn [outcome after trace fst snd]. repeat split; auto.
      apply step_ok_quiet; [exact Hwf | repeat constructor].
Qed.

Lemma session_ok_cons i ins w :
  wf (self w) ->
  outcome (session (i :: ins) w) = outcome (session ins (after (handle i w))) /\
  after (session (i :: ins) w) = after (session ins (after (handle i w))) /\
  trace (session (i :: ins) w)
  = trace (handle i w) ++ trace (session ins (after (handle i w))).
Proof.
  intros Hwf. rewrite session_cons.
  destruct (handle_wf i w Hwf) as [Ho _].
  destruct (handle i w) as [[[u|e] w1] t1];
    cbn [outcome after trace fst snd] in *; [|discriminate].
  now destruct (session ins w1) as [[r w2] t2].
Qed.

Lemma loads_from_perm pl pl' t :
  Permutation pl' pl ->
  Forall (loads_from pl') t -> Forall (loads_from pl) t.
Proof.
  intros P. apply Forall_impl. intros ev.
  destruct ev; cbn; auto; apply (Permutation_in _ P).
Qed.

(** A whole session under the invariant. *)
Lemma session_summary ins : forall w,
  wf (self w) ->
  outcome (session ins w) = Ok tt /\
  is_playing (self (after (session ins w)))
    = last_switch ins (is_playing (self w)) /\
  wf (self (after (session ins w))) /\
  Permutation (playlist (self (after (session ins w)))) (playlist (self w)) /\
  music_dir (self (after (session ins w))) = music_dir (self w) /\
  Forall (loads_from (playlist (self w))) (trace (session ins w)) /\
  count_event is_play (trace (session ins w))
    = count_event is_set_media (trace (session ins w)) /\
  count_event is_set_media (trace (session ins w))
    = count_event is_media_new (trace (session ins w)).
Proof.
  induction ins as [|i ins IH]; intros w Hwf.
  - cbn. repeat split; auto.
  - destruct (session_ok_cons i ins w Hwf) as (Eo & Ea & Et).
    destruct (handle_step i w Hwf)
      as (_ & Hf & Hw1 & P1 & D1 & L1 & C1 & C2 & _).
    destruct (IH _ Hw1) as (Ho & Hf2 & Hw2 & P2 & D2 & L2 & C3 & C4).
    rewrite Eo, Ea, Et, !count_event_app.
    split; [exact Ho|]. split; [now rewrite Hf2, Hf|].
    split; [exact Hw2|]. split; [now rewrite P2|].
    split; [congruence|]. split; [|lia].
    apply Forall_app. split; [exact L1|].
    now apply loads_from_perm with (playlist (self (after (handle i w)))).
Qed.

Lemma handle_starts i w :
  wf (self w) ->
  count_event is_play (trace (handle i w)) <= if may_start i then 1 else 0.
Proof.
  intros Hwf. destruct (handle_step i w Hwf) as (_ & _ & _ & _ & _ & _ & _ & _ & H1).
  destruct i as [| |state]; cbn [may_start]; [exact H1| |].
  - cbn [handle]. destruct (is_playing (self w)) eqn:Hp.
    + now rewrite stop_playing_on.
    + now rewrite stop_playing_off.
  - destruct (finished state) eqn:Hf; [exact H1|]. cbn [handle].
    destruct (is_playing (self w)) eqn:Hp.
    + now rewrite poll_cycle_unfinished.
    + now rewrite poll_cycle_idle.
Qed.

Lemma session_starts ins : forall w,
  wf (self w) ->
  count_event is_play (trace (session ins w))
  <= List.length (filter may_start ins).
Proof.
  induction ins as [|i ins IH]; intros w Hwf; [cbn; lia|].
  destruct (session_ok_cons i ins w Hwf) as (_ & _ & Et).
  destruct (handle_wf i w Hwf) as [_ Hw1].
  rewrite Et, count_event_app. cbn [filter].
  pose proof (handle_starts i w Hwf). specialize (IH _ Hw1).
  destruct (may_start i); cbn [List.length]; lia.
Qed.


Lemma init_music_dir dir fs g : music_dir (self (after (init dir fs g))) = dir.
Proof.
  unfold init. rewrite load_playlist_eq. cbn [self music_dir random_state].
  destruct (Fs.exists_ fs); [|reflexivity].
  destruct (scanned dir fs); [reflexivity|].
  now destruct (Random.shuffle _ _).
Qed.

Lemma session_keeps_tracks_helper dir es g ins :
  Permutation (playlist (self (after (init dir (Fs.RootDir es) g))))
              (audio_files dir es) /\
  Permutation (playlist (self (after (session ins
                                  (after (init dir (Fs.RootDir es) g))))))
              (audio_files dir es).
Proof.
  destruct (init_playlist dir (Fs.RootDir es) g) as (_ & P0 & _).
  cbn [Fs.exists_] in P0.
  assert (P : Permutation (playlist (self (after (init dir (Fs.RootDir es) g))))
                          (audio_files dir es))
    by (rewrite P0; apply scanned_perm).
  split; [exact P|].
  destruct (session_summary ins _ (init_wf dir (Fs.RootDir es) g))
    as (_ & _ & _ & P1 & _).
  now rewrite P1.
Qed.

(** X2: however long the session and however often the playlist is
    reshuffled, the playlist holds the files the scan found, each as
    often: no track is ever lost or added, and the directory field never
    changes. *)
Theorem session_keeps_the_tracks dir fs g ins :
  Permutation (playlist (self (after (session ins (after (init dir fs g))))))
              (playlist (self (after (init dir fs g)))) /\
  music_dir (self (after (session ins (after (init dir fs g))))) = dir /\
  forall es,
    fs = Fs.RootDir es ->
    Permutation (playlist (self (after (session ins (after (init dir fs g))))))
                (audio_files dir es).
Proof.
  destruct (session_summary ins _ (init_wf dir fs g))
    as (_ & _ & _ & P & D & _).
  split; [exact P|]. split; [now rewrite D, init_music_dir|].
  intros es ->. rewrite P.
  destruct (init_playlist dir (Fs.RootDir es) g) as (_ & P0 & _).
  cbn [Fs.exists_] in P0. rewrite P0. apply scanned_perm.
Qed.

Lemma session_keeps_the_tracks_witness :
  Permutation
    (playlist (self (after (session [SwitchActivated; Poll Vlc.Ended;
                                     Poll Vlc.Ended; SwitchDeactivated]
                              trio_player))))
    (audio_files "/home/pi/Music/parents"
       [Fs.File "a.mp3"; Fs.File "b.txt"; Fs.File "c.flac"]).
Proof.
  apply (session_keeps_the_tracks "/home/pi/Music/parents"
           (Fs.RootDir [Fs.File "a.mp3"; Fs.File "b.txt"; Fs.File "c.flac"])
           [1]).
  reflexivity.
Defined.

(** X3: every file handed to VLC in a session ([media_new], [set_media])
    is one the scan found: the path of a file of the tree whose name has
    an audio extension. *)
Theorem only_scanned_files_reach_vlc dir es g ins track :
  In (MediaNew track) (trace (session ins (after (init dir (Fs.RootDir es) g))))
  \/ In (SetMedia track)
        (trace (session ins (after (init dir (Fs.RootDir es) g)))) ->
  In track (audio_files dir es) /\
  exists name, file_at dir es track name /\ has_audio_extension name.
Proof.
  intros Hin.
  destruct (session_summary ins _ (init_wf dir (Fs.RootDir es) g))
    as (_ & _ & _ & _ & _ & L & _).
  rewrite Forall_forall in L.
  assert (Hpl : In track (playlist (self (after (init dir (Fs.RootDir es) g))))).
  { destruct Hin as [Hin|Hin]; exact (L _ Hin). }
  destruct (init_playlist dir (Fs.RootDir es) g) as (_ & P & _).
  cbn [Fs.exists_] in P. apply (Permutation_in _ P) in Hpl. split.
  - apply (Permutation_in _ (scanned_perm dir es)). exact Hpl.
  - apply In_scanned in Hpl. destruct Hpl as (name & Hf & Ha).
    exists name. split; [exact Hf | now apply is_audio_spec].
Qed.

Lemma only_scanned_files_reach_vlc_witness :
  In "/home/pi/Music/parents/c.flac"%string
     (audio_files "/home/pi/Music/parents"
        [Fs.File "a.mp3"; Fs.File "b.txt"; Fs.File "c.flac"]).
Proof.
  apply (only_scanned_files_reach_vlc "/home/pi/Music/parents"
           [Fs.File "a.mp3"; Fs.File "b.txt"; Fs.File "c.flac"] [1]
           [SwitchActivated; Poll Vlc.Stopped]).
  left. vm_compute. repeat (first [left; reflexivity | right]).
Defined.


(** X5: after any session the flag [is_playing] is the position the last
    switch edge gave it (off if there was none): polls and track changes
    never move it, and neither does an empty playlist. *)
Theorem flag_follows_the_switch dir fs g ins :
  is_playing (self (after (session ins (after (init dir fs g)))))
  = last_switch ins false.
Proof.
  destruct (session_summary ins _ (init_wf dir fs g)) as (_ & Hf & _).
  rewrite Hf. f_equal.
  now destruct (init_playlist dir fs g) as (_ & _ & _ & Hp).
Qed.

(** X6: in a session VLC is told to play exactly as often as a media
    was created and set, and at most once for each activation and each
    poll that found the status [Ended] or [Stopped]: deactivations and
    other polls never start a track. *)
Theorem play_only_after_load dir fs g ins :
  count_event is_play (trace (session ins (after (init dir fs g))))
  = count_event is_set_media (trace (session ins (after (init dir fs g)))) /\
  count_event is_set_media (trace (session ins (after (init dir fs g))))
  = count_event is_media_new (trace (session ins (after (init dir fs g)))) /\
  count_event is_play (trace (session ins (after (init dir fs g))))
  <= List.length (filter may_start ins).
Proof.
  destruct (session_summary ins _ (init_wf dir fs g))
    as (_ & _ & _ & _ & _ & _ & C1 & C2).
  split; [exact C1|]. split; [exact C2|].
  apply session_starts, init_wf.
Qed.

(** X7: the loop is endless: in a PLAYING state with a playlist that is
    not empty and the cursor inside it, every poll that finds the status
    [Ended] or [Stopped] starts a track, through every wraparound and
    reshuffle: as many tracks are started as there are such polls, no
    poll raises, and the state stays PLAYING. *)
Theorem finished_polls_always_start_a_track states : forall w,
  wf (self w) ->
  is_playing (self w) = true ->
  playlist (self w) <> [] ->
  Forall (fun state => state = Vlc.Ended \/ state = Vlc.Stopped) states ->
  outcome (session (map Poll states) w) = Ok tt /\
  count_event is_play (trace (session (map Poll states) w))
    = List.length states /\
  is_playing (self (after (session (map Poll states) w))) = true /\
  playlist (self (after (session (map Poll states) w))) <> [].
Proof.
  induction states as [|state states IH]; intros w Hwf Hp Hne Hall.
  - cbn. auto.
  - inversion Hall as [|? ? Hf Hall']; subst. apply finished_true in Hf.
    cbn [map]. destruct (session_ok_cons (Poll state) (map Poll states) w Hwf)
      as (Eo & Ea & Et).
    rewrite Eo, Ea, Et, count_event_app. cbn [handle].
    destruct (wf_cursor _ Hwf Hne) as [track Ht].
    rewrite (poll_cycle_finished state w Hp Hf), (play_next_at w track Ht).
    cbn [after trace fst snd List.length].
    destruct (IH (advanced w)) as (Ho & Hc & Hp' & Hne').
    + now apply advanced_wf.
    + now rewrite advanced_is_playing.
    + intros E. pose proof (advanced_perm w) as P. rewrite E in P.
      apply Permutation_nil in P. contradiction.
    + exact Hall'.
    + split; [exact Ho|]. split; [|split; assumption].
      rewrite Hc. f_equal.
      change (GetState :: ?t) with ([GetState] ++ t).
      rewrite !count_event_app.
      destruct (next_index (self w) =? 0); reflexivity.
Qed.

Lemma finished_polls_always_start_a_track_witness :
  count_event is_play
    (trace (session (map Poll [Vlc.Ended; Vlc.Stopped; Vlc.Ended; Vlc.Ended;
                               Vlc.Stopped])
              (after (session [SwitchActivated] trio_player))))
  = 5.
Proof.
  apply (finished_polls_always_start_a_track
           [Vlc.Ended; Vlc.Stopped; Vlc.Ended; Vlc.Ended; Vlc.Stopped]
           (after (session [SwitchActivated] trio_player))).
  - right. vm_compute. repeat constructor.
  - reflexivity.
  - discriminate.
  - repeat first
      [ apply Forall_nil
      | apply Forall_cons; [first [left; reflexivity | right; reflexivity]|] ].
Defined.

(** X8: until the switch is activated nothing happens: from an IDLE
    state, inputs that hold no activation (deactivations and polls, with
    any status) leave the machine as it was and send nothing to the
    player. *)
Theorem idle_until_activated ins : forall w,
  is_playing (self w) = false ->
  Forall (fun i => i <> SwitchActivated) ins ->
  outcome (session ins w) = Ok tt /\
  after (session ins w) = w /\
  commands (trace (session ins w)) = [].
Proof.
  induction ins as [|i ins IH]; intros w Hp Hall; [cbn; auto|].
  inversion Hall as [|? ? Hi Hall']; subst.
  rewrite session_cons.
  destruct i as [| |state]; [congruence| |]; cbn [handle].
  - rewrite (stop_playing_off w Hp).
    destruct (IH w Hp Hall') as (Ho & Ha & Hc).
    destruct (session ins w) as [[r w2] t2]. cbn in *. auto.
  - rewrite (poll_cycle_idle state w Hp).
    destruct (IH w Hp Hall') as (Ho & Ha & Hc).
    destruct (session ins w) as [[r w2] t2]. cbn in *. auto.
Qed.

Lemma idle_until_activated_witness :
  commands (trace (session [Poll Vlc.Stopped; SwitchDeactivated; Poll Vlc.Ended]
                     trio_player)) = [].
Proof.
  apply (idle_until_activated
           [Poll Vlc.Stopped; SwitchDeactivated; Poll Vlc.Ended] trio_player).
  - reflexivity.
  - repeat constructor; discriminate.
Defined.

(** * More on the scan *)

(** A path found below an entry starts, after the prefix of the
    directory, with the name of that entry. *)
Lemma audio_files_entry_head e : forall top path,
  entry_ok e ->
  In path (audio_files_entry top e) ->
  exists r, path = (join_prefix top ++ r)%string /\ head_is (entry_name e) r.
Proof.
  induction e as [name|d cs IH] using entry_rect'; intros top path Hok Hin.
  - inversion Hok; subst. cbn [audio_files_entry] in Hin.
    destruct (is_audio name); [|contradiction].
    destruct Hin as [<-|[]]. exists name. split; [now apply join_name|].
    now left.
  - inversion Hok as [|? ? Hd Hnd Hall]; subst.
    cbn [audio_files_entry] in Hin. apply in_flat_map in Hin.
    destruct Hin as (c & Hc & Hin).
    rewrite Forall_forall in IH, Hall.
    destruct (IH c Hc _ _ (Hall c Hc) Hin) as (r & -> & _).
    exists (d ++ "/" ++ r)%string. split.
    + rewrite (join_prefix_join top d Hd). now rewrite !string_app_assoc.
    + right. now exists r.
Qed.

Lemma head_is_same n1 n2 r :
  slashless n1 = true -> slashless n2 = true ->
  head_is n1 r -> head_is n2 r -> n1 = n2.
Proof.
  intros S1 S2 [->|[r1 ->]] [E|[r2 E]].
  - now symmetry.
  - rewrite E, slashless_app_slash in S1. discriminate.
  - rewrite <- E, slashless_app_slash in S2. discriminate.
  - now destruct (split_at_first_slash _ _ _ _ S1 S2 E).
Qed.

Lemma audio_files_level_NoDup top es :
  tree_ok es ->
  Forall (fun e => forall top, NoDup (audio_files_entry top e)) es ->
  NoDup (audio_files top es).
Proof.
  unfold audio_files. intros [Hnd Hall] Hes.
  induction es as [|e es IH]; [constructor|].
  cbn [map] in Hnd. inversion Hnd as [|? ? Hnotin Hnd']; subst.
  inversion Hall as [|? ? He Hall']; subst.
  inversion Hes as [|? ? Hne Hes']; subst.
  cbn [flat_map]. apply NoDup_app; [apply Hne | now apply IH |].
  intros path H1 H2. apply in_flat_map in H2. destruct H2 as (e' & He' & H2).
  rewrite Forall_forall in Hall'.
  destruct (audio_files_entry_head e top path He H1) as (r1 & E1 & Hh1).
  destruct (audio_files_entry_head e' top path (Hall' e' He') H2)
    as (r2 & E2 & Hh2).
  rewrite E1 in E2. apply string_app_inv_head in E2. subst r2.
  assert (Hs : forall x, entry_ok x -> slashless (entry_name x) = true).
  { intros x Hx. inversion Hx as [? [_ S]|? ? [_ S]]; exact S. }
  apply Hnotin. rewrite (head_is_same _ _ r1 (Hs e He) (Hs e' (Hall' e' He')) Hh1 Hh2).
  now apply in_map.
Qed.

Lemma audio_files_entry_NoDup e : forall top,
  entry_ok e -> NoDup (audio_files_entry top e).
Proof.
  induction e as [name|d cs IH] using entry_rect'; intros top Hok.
  - cbn [audio_files_entry].
    destruct (is_audio name); repeat constructor. intros [].
  - inversion Hok as [|? ? Hd Hnd Hall]; subst.
    cbn [audio_files_entry].
    change (flat_map (audio_files_entry (Str.join top d)) cs)
      with (audio_files (Str.join top d) cs).
    apply audio_files_level_NoDup; [now split|].
    apply Forall_forall. intros c Hc top'. rewrite Forall_forall in IH, Hall.
    apply IH; auto.
Qed.

Lemma audio_files_NoDup top es : tree_ok es -> NoDup (audio_files top es).
Proof.
  intros Hok. apply audio_files_level_NoDup; [exact Hok|].
  destruct Hok as [_ Hall]. rewrite Forall_forall in *.
  intros e He top'. apply audio_files_entry_NoDup. auto.
Qed.

(** X9: on a tree named as a file system names it, no path is in the
    playlist twice, after the scan and after any session: within a pass
    no file is played a second time. *)
Theorem playlist_has_no_duplicates dir es g ins :
  tree_ok es ->
  NoDup (playlist (self (after (init dir (Fs.RootDir es) g)))) /\
  NoDup (playlist (self (after (session ins
                                  (after (init dir (Fs.RootDir es) g)))))).
Proof.
  intros Hok.
  destruct (session_keeps_tracks_helper dir es g ins) as [P0 P1].
  pose proof (audio_files_NoDup dir es Hok) as N.
  split.
  - exact (Permutation_NoDup (Permutation_sym P0) N).
  - exact (Permutation_NoDup (Permutation_sym P1) N).
Qed.

Lemma playlist_has_no_duplicates_witness :
  NoDup (playlist (self (after (session [SwitchActivated; Poll Vlc.Ended]
                                  trio_player)))).
Proof.
  apply (playlist_has_no_duplicates "/home/pi/Music/parents"
           [Fs.File "a.mp3"; Fs.File "b.txt"; Fs.File "c.flac"] [1]
           [SwitchActivated; Poll Vlc.Ended]).
  split.
  - repeat constructor; cbn; intuition discriminate.
  - repeat constructor; cbn; intuition discriminate.
Defined.

(** X10: what the scan reports.  A path that exists and holds no audio
    file (an empty directory, only other files, or a path that is a
    regular file) gives an empty playlist and the line
    "No audio files found", never the error line, and [shuffle] is not
    called: the random state is untouched.  Otherwise the second and last
    line is "Found n audio files" with [n] the number of audio files of
    the tree. *)
Theorem scan_report dir g :
  (forall es,
     audio_files dir es = [] ->
     init dir (Fs.RootDir es) g
     = (Ok tt, mkMachine (mkPlayer dir [] 0 false) g,
        [Print ("Scanning " ++ dir ++ " for audio files...")%string;
         Print ("No audio files found in " ++ dir)%string])) /\
  init dir Fs.RootFile g
  = (Ok tt, mkMachine (mkPlayer dir [] 0 false) g,
     [Print ("Scanning " ++ dir ++ " for audio files...")%string;
      Print ("No audio files found in " ++ dir)%string]) /\
  (forall es,
     audio_files dir es <> [] ->
     trace (init dir (Fs.RootDir es) g)
     = [Print ("Scanning " ++ dir ++ " for audio files...")%string;
        Print ("Found " ++ Str.of_nat (List.length (audio_files dir es))
                 ++ " audio files")%string]).
Proof.
  split; [|split].
  - intros es He. unfold init. rewrite load_playlist_eq.
    cbn [self music_dir Fs.exists_ random_state].
    pose proof (scanned_perm dir es) as P. rewrite He in P.
    apply Permutation_sym, Permutation_nil in P. now rewrite P.
  - reflexivity.
  - intros es Hne. unfold init. rewrite load_playlist_eq.
    cbn [self music_dir Fs.exists_ random_state].
    pose proof (scanned_perm dir es) as P.
    destruct (scanned dir (Fs.RootDir es)) as [|p0 found] eqn:E.
    + apply Permutation_nil in P. congruence.
    + pose proof (shuffle_length (p0 :: found) g) as Hl.
      destruct (Random.shuffle (p0 :: found) g) as [x g'].
      cbn [fst trace snd] in *. rewrite Hl, (Permutation_length P).
      reflexivity.
Qed.

Lemma scan_report_witness :
  trace (init "/home/pi/Music/parents"
              (Fs.RootDir [Fs.File "a.mp3"; Fs.File "b.txt"; Fs.File "c.flac"])
              [1])
  = [Print "Scanning /home/pi/Music/parents for audio files...";
     Print "Found 2 audio files"].
Proof.
  apply (scan_report "/home/pi/Music/parents" [1]). discriminate.
Defined.

(** X11: [load_playlist] starts from an empty list: called on any
    machine it returns, discards the playlist it finds and leaves a
    permutation of the scan (empty if the path does not exist).  It only
    prints: nothing is sent to the player, and the cursor, the flag and
    the directory are left as they were (the cursor is not reset). *)
Theorem load_playlist_replaces_the_playlist fs w :
  outcome (load_playlist fs w) = Ok tt /\
  Permutation (playlist (self (after (load_playlist fs w))))
              (if Fs.exists_ fs then scanned (music_dir (self w)) fs else []) /\
  current_index (self (after (load_playlist fs w))) = current_index (self w) /\
  is_playing (self (after (load_playlist fs w))) = is_playing (self w) /\
  music_dir (self (after (load_playlist fs w))) = music_dir (self w) /\
  commands (trace (load_playlist fs w)) = [].
Proof.
  rewrite load_playlist_eq. cbn zeta.
  destruct (Fs.exists_ fs).
  - destruct (scanned (music_dir (self w)) fs) as [|p0 found] eqn:E.
    + destruct w as [[? ? ? ?] ?]. repeat split. reflexivity.
    + pose proof (shuffle_perm (p0 :: found) (random_state w)) as P.
      destruct (Random.shuffle (p0 :: found) (random_state w)) as [x g'].
      destruct w as [[? ? ? ?] ?]. repeat split. exact P.
  - destruct w as [[? ? ? ?] ?]. repeat split. reflexivity.
Qed.

(** ** Paths and names *)

Lemma basename_from_slash a : forall acc n,
  Str.basename_from acc (a ++ String "/" n)
  = Str.basename_from EmptyString n.
Proof.
  induction a as [|c a IH]; intros acc n; cbn [append Str.basename_from].
  - reflexivity.
  - destruct (Ascii.eqb c "/"); apply IH.
Qed.

Lemma basename_from_slashless n : forall acc,
  slashless n = true -> Str.basename_from acc n = (acc ++ n)%string.
Proof.
  induction n as [|c n IH]; intros acc Hs; cbn [Str.basename_from].
  - induction acc as [|x acc IHa]; cbn; congruence.
  - cbn [slashless] in Hs. apply andb_true_iff in Hs. destruct Hs as [Hc Hs].
    apply negb_true_iff in Hc. rewrite Hc, (IH _ Hs).
    now rewrite string_app_assoc.
Qed.

Lemma join_prefix_shape top :
  join_prefix top = EmptyString
  \/ exists pre, join_prefix top = (pre ++ "/")%string.
Proof.
  unfold join_prefix. destruct (String.length top =? 0) eqn:El.
  - left. apply Nat.eqb_eq in El. now destruct top.
  - cbn [orb]. right. destruct (Str.ends_with_slash top) eqn:Es.
    + now apply endswith1_spec in Es.
    + now exists top.
Qed.

Lemma basename_prefixed top n :
  slashless n = true -> Str.basename (join_prefix top ++ n) = n.
Proof.
  intros Hs. unfold Str.basename.
  destruct (join_prefix_shape top) as [->|[pre ->]].
  - cbn [append]. now rewrite basename_from_slashless.
  - rewrite string_app_assoc. cbn [append].
    now rewrite basename_from_slash, basename_from_slashless.
Qed.

(** X12: on a tree named as a file system names it, the base name of
    the path the scan builds for a file is the name of the file, however
    deep the file lies and whether or not the directory was given with a
    slash at the end: the line [play_next] prints is "Playing: " and
    that name. *)
Theorem playing_line_shows_the_file_name dir es path name :
  tree_ok es ->
  file_at dir es path name ->
  Str.basename path = name /\
  forall w,
    nth_error (playlist (self w)) (current_index (self w)) = Some path ->
    In (Print ("Playing: " ++ name)%string) (trace (play_next w)).
Proof.
  intros Hok Hf.
  assert (Hb : Str.basename path = name).
  { induction Hf as [top es name Hin | top es d cs path name Hin Hf IH].
    - destruct Hok as [_ Hall].
      pose proof (entry_ok_file _ _ Hall Hin) as Hn.
      rewrite (join_name top name Hn). apply basename_prefixed, Hn.
    - destruct Hok as [_ Hall].
      apply IH. now apply (entry_ok_children _ _ _ Hall Hin). }
  split; [exact Hb|]. intros w Ht.
  rewrite (play_next_at w path Ht). cbn [trace snd load_and_play app].
  left. now rewrite Hb.
Qed.

Lemma playing_line_shows_the_file_name_witness :
  Str.basename "/srv/music/live.mp3/Set1.FLAC" = "Set1.FLAC"%string.
Proof.
  apply (playing_line_shows_the_file_name "/srv/music/"
           [Fs.Dir "live.mp3" [Fs.File "Set1.FLAC"]; Fs.File "b.Ogg"]).
  - split.
    + repeat constructor; cbn; intuition discriminate.
    + repeat constructor; cbn; intuition discriminate.
  - apply (file_below "/srv/music/"
             [Fs.Dir "live.mp3" [Fs.File "Set1.FLAC"]; Fs.File "b.Ogg"]
             "live.mp3" [Fs.File "Set1.FLAC"]); [now left|].
    apply (file_here (Str.join "/srv/music/" "live.mp3")
                     [Fs.File "Set1.FLAC"] "Set1.FLAC").
    now left.
Defined.

(** X13: on such a tree every path of the playlist lies under the music
    directory: it is the directory, a slash unless the directory is
    empty or ends in one, and a relative path that is not empty. *)
Theorem tracks_lie_under_the_music_directory dir es g path :
  tree_ok es ->
  In path (playlist (self (after (init dir (Fs.RootDir es) g)))) ->
  exists rel,
    path = (join_prefix dir ++ rel)%string /\
    rel <> EmptyString /\
    file_rel es rel.
Proof.
  intros Hok Hin.
  destruct (init_playlist dir (Fs.RootDir es) g) as (_ & P & _).
  cbn [Fs.exists_] in P. apply (Permutation_in _ P), In_scanned in Hin.
  destruct Hin as (name & Hf & _).
  destruct (file_at_rel _ _ _ _ Hf Hok) as (rel & Hr & ->).
  exists rel. split; [reflexivity|]. split; [|exact Hr].
  destruct Hok as [_ Hall]. clear Hf P.
  destruct Hr as [es n Hin | es d cs r Hin Hr].
  - now destruct (entry_ok_file _ _ Hall Hin).
  - destruct (entry_ok_children _ _ _ Hall Hin) as [[Hne _] _].
    destruct d; [congruence | discriminate].
Qed.

Lemma tracks_lie_under_the_music_directory_witness :
  exists rel,
    "/home/pi/Music/parents/c.flac"%string
    = (join_prefix "/home/pi/Music/parents" ++ rel)%string /\
    rel <> EmptyString /\
    file_rel [Fs.File "a.mp3"; Fs.File "b.txt"; Fs.File "c.flac"] rel.
Proof.
  apply (tracks_lie_under_the_music_directory "/home/pi/Music/parents"
           [Fs.File "a.mp3"; Fs.File "b.txt"; Fs.File "c.flac"] [1]).
  - split.
    + repeat constructor; cbn; intuition discriminate.
    + repeat constructor; cbn; intuition discriminate.
  - vm_compute. auto.
Defined.

Lemma walk_entry_same_prefix d1 d2 e :
  join_prefix d1 = join_prefix d2 ->
  entry_ok e ->
  Fs.walk_entry d1 e = Fs.walk_entry d2 e.
Proof.
  intros Hp Hok. destruct e as [n|n cs]; [reflexivity|].
  inversion Hok as [|? ? Hn _ _]; subst. cbn [Fs.walk_entry].
  now rewrite (join_name d1 n Hn), (join_name d2 n Hn), Hp.
Qed.

Lemma scanned_same_prefix d1 d2 es :
  join_prefix d1 = join_prefix d2 ->
  Forall entry_ok es ->
  scanned d1 (Fs.RootDir es) = scanned d2 (Fs.RootDir es).
Proof.
  intros Hp Hall. rewrite !scanned_eq. cbn [Fs.walk].
  unfold Fs.walk_dir. cbn [flat_map scan_triple]. f_equal.
  - apply map_ext_in. intros n Hn. apply filter_In in Hn.
    destruct Hn as [Hn _]. apply In_filenames in Hn.
    pose proof (entry_ok_file _ _ Hall Hn) as Hok.
    now rewrite (join_name d1 n Hok), (join_name d2 n Hok), Hp.
  - f_equal. induction Hall as [|e es He Hall IH]; [reflexivity|].
    cbn [flat_map]. now rewrite IH, (walk_entry_same_prefix d1 d2 e Hp He).
Qed.

Lemma init_playlist_of_scan dir fs g :
  playlist (self (after (init dir fs g)))
  = if Fs.exists_ fs then fst (Random.shuffle (scanned dir fs) g) else [].
Proof.
  unfold init. rewrite load_playlist_eq. cbn [self music_dir random_state].
  destruct (Fs.exists_ fs); [|reflexivity].
  destruct (scanned dir fs) as [|p0 found]; [reflexivity|].
  now destruct (Random.shuffle (p0 :: found) g).
Qed.

(** X14: a slash at the end of the music directory makes no
    difference: on a tree named as a file system names it, the scan of
    [dir/] gives the very playlist, same paths in the same order, as
    the scan of [dir]. *)
Theorem trailing_slash_makes_no_difference dir es g :
  dir <> EmptyString ->
  Str.ends_with_slash dir = false ->
  tree_ok es ->
  playlist (self (after (init (dir ++ "/") (Fs.RootDir es) g)))
  = playlist (self (after (init dir (Fs.RootDir es) g))).
Proof.
  intros Hne Hs [_ Hall]. rewrite !init_playlist_of_scan. cbn [Fs.exists_].
  rewrite (scanned_same_prefix (dir ++ "/") dir es); [reflexivity| |exact Hall].
  unfold join_prefix. rewrite Hs.
  replace (Str.ends_with_slash (dir ++ "/")) with true.
  - rewrite orb_true_r.
    replace (String.length dir =? 0) with false; [reflexivity|].
    symmetry. apply Nat.eqb_neq. destruct dir; [congruence | discriminate].
  - symmetry. apply endswith1_spec. now exists dir.
Qed.

Lemma trailing_slash_makes_no_difference_witness :
  playlist (self (after (init "/srv/music/"
     (Fs.RootDir [Fs.Dir "live" [Fs.File "Set1.FLAC"]; Fs.File "b.Ogg"]) [0])))
  = playlist (self (after (init "/srv/music"
     (Fs.RootDir [Fs.Dir "live" [Fs.File "Set1.FLAC"]; Fs.File "b.Ogg"]) [0]))).
Proof.
  apply (trailing_slash_makes_no_difference "/srv/music"
           [Fs.Dir "live" [Fs.File "Set1.FLAC"]; Fs.File "b.Ogg"] [0]).
  - discriminate.
  - reflexivity.
  - split.
    + repeat constructor; cbn; intuition discriminate.
    + repeat constructor; cbn; intuition discriminate.
Defined.

(** * The cursor counts the tracks *)

Lemma quiet_arith p :
  wf p ->
  (current_index p + 0) mod List.length (playlist p) = current_index p /\
  (current_index p + 0) / List.length (playlist p) = 0.
Proof.
  intros [He|Hlt]; rewrite Nat.add_0_r.
  - rewrite He. split; reflexivity.
  - split; [now apply Nat.mod_small | now apply Nat.div_small].
Qed.

Lemma play_next_cursor w :
  wf (self w) ->
  current_index (self (after (play_next w)))
  = (current_index (self w) + count_event is_play (trace (play_next w)))
      mod List.length (playlist (self w)) /\
  printed msg_reshuffle (trace (play_next w))
  = (current_index (self w) + count_event is_play (trace (play_next w)))
      / List.length (playlist (self w)).
Proof.
  intros Hwf.
  destruct (playlist (self w)) as [|t0 pl] eqn:Hpl.
  - rewrite (play_next_empty w Hpl). cbn [after trace fst snd].
    rewrite <- Hpl. change (count_event is_play [Print msg_no_tracks]) with 0.
    destruct (quiet_arith _ Hwf) as [-> ->]. split; reflexivity.
  - rewrite <- Hpl.
    assert (Hne : playlist (self w) <> []) by congruence.
    destruct (wf_cursor _ Hwf Hne) as [track Ht].
    assert (Hlt : current_index (self w) < List.length (playlist (self w)))
      by (apply nth_error_Some; congruence).
    rewrite (play_next_at w track Ht). cbn [after trace fst snd].
    rewrite advanced_index, count_event_app, printed_app.
    assert (Hc : count_event is_play (load_and_play track)
                 + count_event is_play
                     (if next_index (self w) =? 0 then [Print msg_reshuffle]
                      else []) = 1)
      by (destruct (next_index (self w) =? 0); reflexivity).
    rewrite Hc. split; [reflexivity|].
    change (printed msg_reshuffle (load_and_play track)) with 0.
    unfold next_index.
    destruct (Nat.eq_dec (current_index (self w) + 1)
                         (List.length (playlist (self w)))) as [E|E].
    + rewrite E, Nat.Div0.mod_same, Nat.div_same by lia. reflexivity.
    + rewrite Nat.mod_small, Nat.div_small by lia.
      replace (current_index (self w) + 1 =? 0) with false
        by (symmetry; apply Nat.eqb_neq; lia).
      reflexivity.
Qed.

Lemma with_playing_fields b w :
  playlist (self (with_playing b w)) = playlist (self w) /\
  current_index (self (with_playing b w)) = current_index (self w).
Proof. destruct w as [[? ? ? ?] ?]. split; reflexivity. Qed.

(** One handler, under the invariant: the cursor moves by the tracks it
    started, modulo the length, and the reshuffles it logs are the wraps. *)
Lemma handle_cursor i w :
  wf (self w) ->
  current_index (self (after (handle i w)))
  = (current_index (self w) + count_event is_play (trace (handle i w)))
      mod List.length (playlist (self w)) /\
  printed msg_reshuffle (trace (handle i w))
  = (current_index (self w) + count_event is_play (trace (handle i w)))
      / List.length (playlist (self w)).
Proof.
  intros Hwf. destruct (quiet_arith _ Hwf) as [Qm Qd].
  destruct i as [| |state]; cbn [handle].
  - destruct (is_playing (self w)) eqn:Hp.
    + rewrite start_playing_on by assumption. cbn [after trace fst snd].
      change (count_event is_play []) with 0. now rewrite Qm, Qd.
    + rewrite start_playing_off by assumption. cbn [after trace fst snd].
      destruct (play_next_cursor (with_playing true w)) as [Hi Hr];
        [now apply wf_with_playing|].
      destruct (with_playing_fields true w) as [Epl Eidx].
      rewrite Epl, Eidx in Hi, Hr.
      change (Print msg_switch_on :: ?t) with ([Print msg_switch_on] ++ t).
      rewrite count_event_app, printed_app.
      change (count_event is_play [Print msg_switch_on]) with 0.
      change (printed msg_reshuffle [Print msg_switch_on]) with 0.
      cbn [Nat.add]. split; assumption.
  - destruct (is_playing (self w)) eqn:Hp.
    + rewrite stop_playing_on by assumption. cbn [after trace fst snd].
      destruct (with_playing_fields false w) as [_ Eidx]. rewrite Eidx.
      change (count_event is_play [Print msg_switch_off; Stop]) with 0.
      now rewrite Qm, Qd.
    + rewrite stop_playing_off by assumption. cbn [after trace fst snd].
      change (count_event is_play []) with 0. now rewrite Qm, Qd.
  - destruct (is_playing (self w)) eqn:Hp.
    + destruct (finished state) eqn:Hf.
      * rewrite poll_cycle_finished by assumption.
        destruct (play_next_cursor w Hwf) as [Hi Hr].
        destruct (play_next_wf w Hwf) as [Ho _].
        destruct (play_next w) as [[[u|e] w'] t];
          cbn [outcome after trace fst snd] in *; [|discriminate].
        change (GetState :: t ++ [Sleep]) with ([GetState] ++ t ++ [Sleep]).
        rewrite !count_event_app, !printed_app.
        change (count_event is_play [GetState]) with 0.
        change (count_event is_play [Sleep]) with 0.
        change (printed msg_reshuffle [GetState]) with 0.
        change (printed msg_reshuffle [Sleep]) with 0.
        cbn [Nat.add]. rewrite !Nat.add_0_r. split; assumption.
      * rewrite poll_cycle_unfinished by assumption.
        cbn [after trace fst snd].
        change (count_event is_play [GetState; Sleep]) with 0.
        now rewrite Qm, Qd.
    + rewrite poll_cycle_idle by assumption. cbn [after trace fst snd].
      change (count_event is_play [Sleep]) with 0. now rewrite Qm, Qd.
Qed.

Lemma div_step a c n :
  (a + c) / n = a / n + (a mod n + c) / n.
Proof.
  destruct n as [|n]; [reflexivity|].
  rewrite (Nat.div_mod_eq a (S n)) at 1.
  rewrite <- Nat.add_assoc, Nat.mul_comm.
  now rewrite Nat.div_add_l by lia.
Qed.

Lemma session_cursor ins : forall w,
  wf (self w) ->
  current_index (self (after (session ins w)))
  = (current_index (self w) + count_event is_play (trace (session ins w)))
      mod List.length (playlist (self w)) /\
  printed msg_reshuffle (trace (session ins w))
  = (current_index (self w) + count_event is_play (trace (session ins w)))
      / List.length (playlist (self w)).
Proof.
  induction ins as [|i ins IH]; intros w Hwf.
  - cbn [session for_each ret after trace fst snd].
    change (count_event is_play []) with 0.
    destruct (quiet_arith _ Hwf) as [-> ->]. split; reflexivity.
  - destruct (session_ok_cons i ins w Hwf) as (_ & Ea & Et).
    destruct (handle_cursor i w Hwf) as [Hi Hr].
    destruct (handle_step i w Hwf) as (_ & _ & Hw1 & P1 & _).
    destruct (IH _ Hw1) as [Hi2 Hr2].
    rewrite (Permutation_length P1) in Hi2, Hr2.
    rewrite Ea, Et, count_event_app, printed_app.
    rewrite Hi2, Hr2, Hr, Hi. split.
    + now rewrite Nat.Div0.add_mod_idemp_l, Nat.add_assoc.
    + now rewrite Nat.add_assoc, <- div_step.
Qed.

(** X15: the cursor counts the tracks: after any session the cursor is
    the number of tracks started since [__init__], modulo the number of
    tracks of the playlist, which no session changes. *)
Theorem cursor_counts_the_tracks dir fs g ins :
  current_index (self (after (session ins (after (init dir fs g)))))
  = count_event is_play (trace (session ins (after (init dir fs g))))
      mod List.length (playlist (self (after (init dir fs g)))) /\
  List.length (playlist (self (after (session ins (after (init dir fs g))))))
  = List.length (playlist (self (after (init dir fs g)))).
Proof.
  destruct (session_cursor ins _ (init_wf dir fs g)) as [Hi _].
  destruct (init_playlist dir fs g) as (_ & _ & H0 & _).
  rewrite H0 in Hi. split; [exact Hi|].
  destruct (session_summary ins _ (init_wf dir fs g)) as (_ & _ & _ & P & _).
  apply (Permutation_length P).
Qed.

(** X16: the playlist is reshuffled once for every full pass and at no
    other time: the number of reshuffles logged in a session is the
    number of tracks started since [__init__] divided by the number of
    tracks (none at all on an empty playlist). *)
Theorem one_reshuffle_per_pass dir fs g ins :
  printed msg_reshuffle (trace (session ins (after (init dir fs g))))
  = count_event is_play (trace (session ins (after (init dir fs g))))
      / List.length (playlist (self (after (init dir fs g)))).
Proof.
  destruct (session_cursor ins _ (init_wf dir fs g)) as [_ Hr].
  destruct (init_playlist dir fs g) as (_ & _ & H0 & _).
  now rewrite H0 in Hr.
Qed.
